(** * A StatsD client: buffered metric lines, flushed by a background task

    Shallow embedding of [client.go] and [options.go] of devem-tech/statsd.

    - Go strings are [string]; a [[]byte] is a slice header over an array
      of the store, so that two slices over one array alias as they do
      in Go;
    - every method of [Client] is a function on the program state; the
      methods that run in the background goroutine or that can block
      ([flushMetrics], [Close]) are cut at the points where another
      goroutine can run;
    - the goroutines are put together in a labelled step function
      ([step]), one label for each thing a goroutine can do next. *)

From Stdlib Require Import ZArith Lia Ascii String DecimalString SpecFloat.
From stdpp Require Import base list strings.

Local Open Scope nat_scope.

(** ** Bytes and strings *)

Abbreviation byte := ascii.

(** [[]byte(s)] and [append(b, s...)] for a string [s]. *)
Definition bytes (s : string) : list byte := list_ascii_of_string s.

Definition LF : byte := "010"%char.

(** ** Slices and their backing arrays *)

(** The store holds the arrays that slices point into; an array never
    changes its length. *)
Abbreviation heap := (list (list byte)).

(** A slice header.  Every slice expression of the program has the form
    [s[:k]], so a slice always starts at the first cell of its array and
    the pointer is the array's index in the store. *)
Record slice := Slice { arr : nat; len : nat; cap : nat }.

(** The bytes a slice shows: the first [len] cells of its array. *)
Definition data (h : heap) (s : slice) : list byte :=
  take (len s) (default [] (h !! arr s)).

(** [make([]byte, 0, c)]: a new array of [c] zero bytes. *)
Definition make (h : heap) (c : nat) : heap * slice :=
  (h ++ [replicate c zero], Slice (length h) 0 c).

(** [[]byte(s)]: a new array holding the bytes of [s]. *)
Definition of_string (h : heap) (s : string) : heap * slice :=
  (h ++ [bytes s], Slice (length h) (String.length s) (String.length s)).

(** The capacity the runtime picks when [append] has to move a slice of
    capacity [oldCap] to hold [newLen] bytes: at least [newLen], and twice
    the old capacity when that is more.  (The runtime rounds this up to an
    allocation size class; nothing below depends on the spare room.) *)
Definition growslice (newLen oldCap : nat) : nat :=
  Nat.max newLen (oldCap + oldCap).

(** [append(s, xs...)].  With room in the array the bytes are written in
    place, behind the [len] cells the slice shows; without, the shown
    cells and [xs] go to a new array.  The result is the new header: the
    header [s] that was passed in is a value and stays as it was. *)
Definition append (h : heap) (s : slice) (xs : list byte) : heap * slice :=
  let n := len s + length xs in
  if decide (n ≤ cap s) then
    let a := default [] (h !! arr s) in
    (<[arr s := take (len s) a ++ xs ++ drop n a]> h, Slice (arr s) n (cap s))
  else
    let c := growslice n (cap s) in
    (h ++ [data h s ++ xs ++ replicate (c - n) zero], Slice (length h) n c).

(** [s[:k]] for [k <= cap(s)] (beyond that Go panics; the program only
    takes [s[:len(s)-1]] and [s[:0]]). *)
Definition reslice (s : slice) (k : nat) : slice :=
  Slice (arr s) k (cap s).

(** A header is valid in a store when its array is there, has [cap]
    cells, and [len] is within it. *)
Definition valid (h : heap) (s : slice) : Prop :=
  ∃ a, h !! arr s = Some a ∧ length a = cap s ∧ len s ≤ cap s.

(** ** The data of [client.go] *)

(** [Tag]: a key and a value. *)
Record Tag := { Key : string; Value : string }.

(** Go [error] values, and the identity of an [errorHandler] callback. *)
Inductive error := Error (msg : string).
Inductive handler := Handler (id : nat).

(** [options], the client configuration (in a module of its own, as
    [Client] has fields of the same names).  [int] and [time.Duration] are
    64-bit integers, kept as [Z]. *)
Module Options.
Record options := {
  host : string;
  port : Z;
  maxBufferSize : Z;
  flushInterval : Z;
  errorHandler : option handler;
  prefix : string;
  tags : list Tag
}.
End Options.

(** A channel of [struct{}]: its capacity, how many signals are queued,
    and whether it was closed. *)
Record chan := Chan { chCap : nat; chLen : nat; chClosed : bool }.

Definition make_chan (c : nat) : chan := Chan c 0 false.

(** [net.Conn]: where it points and whether [Close] was called on it. *)
Record Conn := { remote : string; connClosed : bool }.

(** [Client].  [bufferLock] has no field: the sections of code between
    [Lock] and [Unlock] are the units the functions below are cut into,
    so the mutex is free whenever one of them starts. *)
Record Client := {
  conn : Conn;
  buffer : slice;
  maxBufferSize : Z;
  flushInterval : Z;
  flushChan : chan;
  quitChan : chan;
  wg : nat;
  errorHandler : option handler;
  prefix : slice;
  tags : slice
}.

(** What the program does to the outside, and the choices of the
    background task, in the order they happen (newest first). *)
Inductive event :=
  | EvRequest (queued : bool)
  | EvTick
  | EvRecvFlush
  | EvRecvQuit (residual : list byte)
  | EvWrite (bs : list byte) (err : option error)
  | EvHandler (f : handler) (err : error)
  | EvBgExit
  | EvCloseSignal
  | EvConnClose (err : option error)
  | EvCloseReturn.

(** The program state: the store, the one client, the log. *)
Record state := { mem : heap; self : Client; log : list event }.

Definition set_mem (h : heap) (st : state) : state :=
  {| mem := h; self := self st; log := log st |}.

Definition emit (e : event) (st : state) : state :=
  {| mem := mem st; self := self st; log := e :: log st |}.

Definition set_buffer (b : slice) (c : Client) : Client :=
  {| conn := conn c; buffer := b; maxBufferSize := maxBufferSize c;
     flushInterval := flushInterval c; flushChan := flushChan c;
     quitChan := quitChan c; wg := wg c; errorHandler := errorHandler c;
     prefix := prefix c; tags := tags c |}.

Definition set_flushChan (ch : chan) (c : Client) : Client :=
  {| conn := conn c; buffer := buffer c; maxBufferSize := maxBufferSize c;
     flushInterval := flushInterval c; flushChan := ch;
     quitChan := quitChan c; wg := wg c; errorHandler := errorHandler c;
     prefix := prefix c; tags := tags c |}.

Definition set_quitChan (ch : chan) (c : Client) : Client :=
  {| conn := conn c; buffer := buffer c; maxBufferSize := maxBufferSize c;
     flushInterval := flushInterval c; flushChan := flushChan c;
     quitChan := ch; wg := wg c; errorHandler := errorHandler c;
     prefix := prefix c; tags := tags c |}.

Definition set_wg (n : nat) (c : Client) : Client :=
  {| conn := conn c; buffer := buffer c; maxBufferSize := maxBufferSize c;
     flushInterval := flushInterval c; flushChan := flushChan c;
     quitChan := quitChan c; wg := n; errorHandler := errorHandler c;
     prefix := prefix c; tags := tags c |}.

Definition set_conn (k : Conn) (c : Client) : Client :=
  {| conn := k; buffer := buffer c; maxBufferSize := maxBufferSize c;
     flushInterval := flushInterval c; flushChan := flushChan c;
     quitChan := quitChan c; wg := wg c; errorHandler := errorHandler c;
     prefix := prefix c; tags := tags c |}.

Definition with_self (f : Client → Client) (st : state) : state :=
  {| mem := mem st; self := f (self st); log := log st |}.

(** ** [serializeTagsTo] *)

(** The loop of [serializeTagsTo]: the local variable [buffer] is
    reassigned by each [append]. *)
Fixpoint serializeTagsTo_loop (ts : list Tag) (h : heap) (buffer : slice)
  : heap * slice :=
  match ts with
  | [] => (h, buffer)
  | tag :: rest =>
      let '(h, buffer) := append h buffer [";"%char] in
      let '(h, buffer) := append h buffer (bytes (Key tag)) in
      let '(h, buffer) := append h buffer ["="%char] in
      let '(h, buffer) := append h buffer (bytes (Value tag)) in
      serializeTagsTo_loop rest h buffer
  end.

(** [c.serializeTagsTo(buffer, tags)].  The function has no result and
    [buffer] is its own copy of the caller's header, so what the loop
    leaves in [buffer] is gone when it returns; the caller keeps the
    writes to the store. *)
Definition serializeTagsTo (buffer : slice) (ts : list Tag) (st : state)
  : state :=
  let '(h, _) := serializeTagsTo_loop ts (mem st) buffer in
  set_mem h st.

(** ** [requestFlush] and [send] *)

(** [requestFlush]: a [select] with a send case and a [default].  The
    send is taken when the channel has a free slot. *)
Definition requestFlush (st : state) : state :=
  let ch := flushChan (self st) in
  if decide (chLen ch < chCap ch) then
    emit (EvRequest true)
      (with_self (set_flushChan (Chan (chCap ch) (S (chLen ch)) (chClosed ch))) st)
  else
    emit (EvRequest false) st.

(** [c.buffer = append(c.buffer, xs...)]. *)
Definition append_buffer (xs : list byte) (st : state) : state :=
  let '(h, b) := append (mem st) (buffer (self st)) xs in
  {| mem := h; self := set_buffer b (self st); log := log st |}.

(** [send], statement by statement; it runs under [bufferLock] from
    its first statement to its return. *)
Definition send (key value mt : string) (ts : list Tag) (st : state)
  : state :=
  let st := append_buffer (data (mem st) (prefix (self st))) st in
  let st := append_buffer (bytes key) st in
  let st := append_buffer [":"%char] st in
  let st := append_buffer (bytes value) st in
  let st := append_buffer (data (mem st) (tags (self st))) st in
  let st := serializeTagsTo (buffer (self st)) ts st in
  let st := append_buffer ["|"%char] st in
  let st := append_buffer (bytes mt) st in
  let st := append_buffer [LF] st in
  if decide (maxBufferSize (self st) ≤ Z.of_nat (len (buffer (self st))))%Z
  then requestFlush st
  else st.

(** ** [flushMetrics] *)

(** The part of [flushMetrics] under the lock: nothing for an empty
    buffer; otherwise [data := c.buffer[:n-1]] and
    [c.buffer = c.buffer[:0]].  Both new headers are over the array the
    buffer had. *)
Definition flushMetrics_swap (st : state) : state * option slice :=
  let b := buffer (self st) in
  let n := len b in
  if decide (n = 0) then (st, None)
  else (with_self (set_buffer (reslice b 0)) st, Some (reslice b (n - 1))).

(** The part after [Unlock]: [c.conn.Write(data)], whose error [r] goes
    to the handler when there is one.  The bytes written are those the
    array holds at that moment. *)
Definition flushMetrics_write (d : slice) (r : option error) (st : state)
  : state :=
  let st := emit (EvWrite (data (mem st) d) r) st in
  match r, errorHandler (self st) with
  | Some err, Some f => emit (EvHandler f err) st
  | _, _ => st
  end.

(** [flushMetrics] run from start to end, [r] being what the connection
    answers to the write. *)
Definition flushMetrics (r : option error) (st : state) : state :=
  match flushMetrics_swap st with
  | (st, None) => st
  | (st, Some d) => flushMetrics_write d r st
  end.

(** ** The metric methods *)

(** [strconv.FormatInt(v, 10)] (and [strconv.Itoa]). *)
Definition FormatInt (v : Z) : string :=
  NilZero.string_of_int (Z.to_int v).

(** [Count]: nothing for a zero value. *)
Definition Count (key : string) (value : Z) (ts : list Tag) (st : state)
  : state :=
  if decide (value = 0%Z) then st
  else send key (FormatInt value) "c" ts st.

Definition Increment (key : string) (ts : list Tag) (st : state) : state :=
  Count key 1 ts st.

(** [float64] values are kept as IEEE 754 data ([spec_float]). *)
Definition float64 := spec_float.

Section Gauge.

(** The digits [strconv] gives a finite value other than zero, from its
    mantissa and exponent (the shortest decimal that reads back as the
    same value).  Nothing here depends on them. *)
Variable shortest : positive → Z → string.

(** [strconv.FormatFloat(v, 'f', -1, 64)]. *)
Definition FormatFloat (v : float64) : string :=
  match v with
  | S754_nan => "NaN"
  | S754_infinity s => if s then "-Inf" else "+Inf"
  | S754_zero s => if s then "-0" else "0"
  | S754_finite s m e => ((if s then "-" else "") ++ shortest m e)%string
  end.

Definition Gauge (key : string) (value : float64) (ts : list Tag)
    (st : state) : state :=
  send key (FormatFloat value) "g" ts st.

End Gauge.

(** [Duration.Milliseconds]: nanoseconds divided by [1e6], the quotient
    of Go's integer division, which rounds toward zero. *)
Definition Milliseconds (d : Z) : Z := (d ÷ 1000000)%Z.

Definition Timing (key : string) (duration : Z) (ts : list Tag)
    (st : state) : state :=
  send key (FormatInt (Milliseconds duration)) "ms" ts st.

(** [Timer] reads the clock ([start]) and returns a function; calling it
    reads the clock again ([now]) and sends the difference. *)
Definition Timer (key : string) (ts : list Tag) (start : Z)
  : Z → state → state :=
  fun now st => Timing key (now - start)%Z ts st.

(** ** [options.go] *)

(** A functional option: a function that changes the configuration. *)
Definition Option := Options.options → Options.options.

Definition Host (host : string) : Option := fun o =>
  {| Options.host := host; Options.port := Options.port o;
     Options.maxBufferSize := Options.maxBufferSize o;
     Options.flushInterval := Options.flushInterval o;
     Options.errorHandler := Options.errorHandler o;
     Options.prefix := Options.prefix o; Options.tags := Options.tags o |}.

Definition Port (port : Z) : Option := fun o =>
  {| Options.host := Options.host o; Options.port := port;
     Options.maxBufferSize := Options.maxBufferSize o;
     Options.flushInterval := Options.flushInterval o;
     Options.errorHandler := Options.errorHandler o;
     Options.prefix := Options.prefix o; Options.tags := Options.tags o |}.

Definition MaxBufferSize (maxBufferSize : Z) : Option := fun o =>
  {| Options.host := Options.host o; Options.port := Options.port o;
     Options.maxBufferSize := maxBufferSize;
     Options.flushInterval := Options.flushInterval o;
     Options.errorHandler := Options.errorHandler o;
     Options.prefix := Options.prefix o; Options.tags := Options.tags o |}.

Definition FlushInterval (flushInterval : Z) : Option := fun o =>
  {| Options.host := Options.host o; Options.port := Options.port o;
     Options.maxBufferSize := Options.maxBufferSize o;
     Options.flushInterval := flushInterval;
     Options.errorHandler := Options.errorHandler o;
     Options.prefix := Options.prefix o; Options.tags := Options.tags o |}.

Definition ErrorHandler (errorHandler : option handler) : Option := fun o =>
  {| Options.host := Options.host o; Options.port := Options.port o;
     Options.maxBufferSize := Options.maxBufferSize o;
     Options.flushInterval := Options.flushInterval o;
     Options.errorHandler := errorHandler;
     Options.prefix := Options.prefix o; Options.tags := Options.tags o |}.

(** [strings.HasSuffix] and [strings.TrimSuffix]. *)
Definition HasSuffix (s suffix : string) : bool :=
  bool_decide (String.length suffix ≤ String.length s)
  && String.eqb
       (substring (String.length s - String.length suffix)
          (String.length suffix) s)
       suffix.

Definition TrimSuffix (s suffix : string) : string :=
  if HasSuffix s suffix
  then substring 0 (String.length s - String.length suffix) s
  else s.

Definition Prefix (prefix : string) : Option := fun o =>
  {| Options.host := Options.host o; Options.port := Options.port o;
     Options.maxBufferSize := Options.maxBufferSize o;
     Options.flushInterval := Options.flushInterval o;
     Options.errorHandler := Options.errorHandler o;
     Options.prefix := (TrimSuffix prefix "." ++ ".")%string;
     Options.tags := Options.tags o |}.

Definition Tags (tags : list Tag) : Option := fun o =>
  {| Options.host := Options.host o; Options.port := Options.port o;
     Options.maxBufferSize := Options.maxBufferSize o;
     Options.flushInterval := Options.flushInterval o;
     Options.errorHandler := Options.errorHandler o;
     Options.prefix := Options.prefix o; Options.tags := tags |}.

(** ** [New] and [Close] *)

Definition defaultPort : Z := 8125.
Definition defaultMaxBufferSize : Z := 512.
(** [100 * time.Millisecond], in nanoseconds. *)
Definition defaultFlushInterval : Z := 100 * 1000000.
Definition bufferCapFactor : Z := 2.

(** A call returns, returns an error, or panics. *)
Inductive result (A : Type) :=
  | Ok (a : A)
  | Fail (e : error)
  | Panic (msg : string).
Arguments Ok {A} a.
Arguments Fail {A} e.
Arguments Panic {A} msg.

(** Arithmetic on [int] wraps around at 64 bits. *)
Definition wrap64 (z : Z) : Z := ((z + 2 ^ 63) mod 2 ^ 64 - 2 ^ 63)%Z.

(** [make([]byte, 0, c)] for an [int] [c]: the runtime panics when [c] is
    negative or above what it can allocate (2^48 bytes on 64-bit Linux). *)
Definition maxAlloc : Z := 2 ^ 48.

Definition make_cap (h : heap) (c : Z) : option (heap * slice) :=
  if decide (0 ≤ c ≤ maxAlloc)%Z then Some (make h (Z.to_nat c)) else None.

(** [startBackgroundFlusher], the part that runs in the caller:
    [c.wg.Add(1)].  The goroutine it starts is the background task of
    [step] below. *)
Definition startBackgroundFlusher (st : state) : state :=
  with_self (fun c => set_wg (wg c + 1) c) st.

(** The first lines of [New]: the defaults, then each option applied in
    turn. *)
Definition configure (opts : list Option) : Options.options :=
  fold_left (fun o (opt : Option) => opt o) opts
    {| Options.host := ""; Options.port := defaultPort;
       Options.maxBufferSize := defaultMaxBufferSize;
       Options.flushInterval := defaultFlushInterval;
       Options.errorHandler := None;
       Options.prefix := ""; Options.tags := [] |}.

(** [New].  [dial] is what [net.Dial] answers for the address. *)
Definition New (opts : list Option) (dial : option error) : result state :=
  let o := configure opts in
  let address := (Options.host o ++ ":" ++ FormatInt (Options.port o))%string in
  match dial with
  | Some (Error msg) => Fail (Error ("statsd: " ++ msg))
  | None =>
    match make_cap [] (wrap64 (Options.maxBufferSize o * bufferCapFactor)) with
    | None => Panic "makeslice: cap out of range"
    | Some (h, buf) =>
      let '(h, pre) := of_string h (Options.prefix o) in
      match make_cap h (Options.maxBufferSize o) with
      | None => Panic "makeslice: cap out of range"
      | Some (h, tgs) =>
        let client :=
          {| conn := {| remote := address; connClosed := false |};
             buffer := buf;
             maxBufferSize := Options.maxBufferSize o;
             flushInterval := Options.flushInterval o;
             flushChan := make_chan 1;
             quitChan := make_chan 0;
             wg := 0;
             errorHandler := Options.errorHandler o;
             prefix := pre;
             tags := tgs |} in
        let st := {| mem := h; self := client; log := [] |} in
        let st := serializeTagsTo (tags (self st)) (Options.tags o) st in
        let st := startBackgroundFlusher st in
        Ok st
      end
    end
  end.

(** [Close], first statement: [close(c.quitChan)], which panics on a
    channel that is closed already. *)
Definition Close_signal (st : state) : result state :=
  let ch := quitChan (self st) in
  if chClosed ch then Panic "close of closed channel"
  else Ok (emit EvCloseSignal
             (with_self (set_quitChan (Chan (chCap ch) (chLen ch) true)) st)).

(** [Close], after [c.wg.Wait()] has let it through: [c.conn.Close()],
    whose error [r] goes to the handler when there is one. *)
Definition Close_finish (r : option error) (st : state) : state :=
  let st :=
    emit (EvConnClose r)
      (with_self
         (fun c => set_conn {| remote := remote (conn c); connClosed := true |} c)
         st) in
  let st :=
    match r, errorHandler (self st) with
    | Some err, Some f => emit (EvHandler f err) st
    | _, _ => st
    end in
  emit EvCloseReturn st.

(** ** The goroutines together *)

(** Where the background task is: before its ticker is made, at the
    [select], between the two parts of a [flushMetrics] (holding [data];
    [final] when it came from the [quitChan] case), or returned. *)
Inductive bgState :=
  | BgStart
  | BgSelect
  | BgWrite (d : slice) (final : bool)
  | BgExited.

(** Where the caller of [Close] is. *)
Inductive closeState :=
  | CloseNotCalled
  | CloseWaiting
  | CloseReturned.

Record system := { st : state; bg : bgState; closer : closeState }.

(** What can happen next.  [LSend] is a caller inside [send] (from
    [Count] with a value other than zero, [Gauge] or [Timing]); the next
    five are the background task; the last two are [Close]. *)
Inductive label :=
  | LSend (key value mt : string) (ts : list Tag)
  | LStart
  | LTick
  | LRecvFlush
  | LRecvQuit
  | LWrite (r : option error)
  | LClose
  | LCloseWait (r : option error).

Inductive outcome :=
  | Next (s : system)
  | Blocked
  | Crash (msg : string).

(** The background task returns: the deferred [c.wg.Done()]. *)
Definition bg_exit (st1 : state) (cl : closeState) : outcome :=
  match wg (self st1) with
  | 0 => Crash "sync: negative WaitGroup counter"
  | S n =>
      Next {| st := emit EvBgExit (with_self (set_wg n) st1);
              bg := BgExited; closer := cl |}
  end.

(** One step of one goroutine.  [Blocked] is a step that cannot be taken
    in this state: a [select] case that is not ready, [wg.Wait()] with the
    counter above zero, or a goroutine that is somewhere else.

    - [LStart]: [time.NewTicker(c.flushInterval)], which panics for an
      interval that is not positive;
    - [LTick]: the case [<-ticker.C];
    - [LRecvFlush]: the case [<-c.flushChan], ready with a signal queued,
      then [flushMetrics] up to its [Unlock];
    - [LRecvQuit]: the case [<-c.quitChan], ready once the channel is
      closed, then [flushMetrics] up to its [Unlock];
    - [LWrite]: the rest of [flushMetrics], and the [return] after the
      final one. *)
Definition step (l : label) (s : system) : outcome :=
  match l with
  | LSend key value mt ts =>
      Next {| st := send key value mt ts (st s); bg := bg s; closer := closer s |}
  | LStart =>
      match bg s with
      | BgStart =>
          if decide (flushInterval (self (st s)) ≤ 0)%Z
          then Crash "non-positive interval for NewTicker"
          else Next {| st := st s; bg := BgSelect; closer := closer s |}
      | _ => Blocked
      end
  | LTick =>
      match bg s with
      | BgSelect =>
          Next {| st := requestFlush (emit EvTick (st s));
                  bg := BgSelect; closer := closer s |}
      | _ => Blocked
      end
  | LRecvFlush =>
      match bg s with
      | BgSelect =>
          let ch := flushChan (self (st s)) in
          match chLen ch with
          | 0 => Blocked
          | S n =>
              let st1 :=
                emit EvRecvFlush
                  (with_self (set_flushChan (Chan (chCap ch) n (chClosed ch)))
                     (st s)) in
              match flushMetrics_swap st1 with
              | (st2, None) =>
                  Next {| st := st2; bg := BgSelect; closer := closer s |}
              | (st2, Some d) =>
                  Next {| st := st2; bg := BgWrite d false; closer := closer s |}
              end
          end
      | _ => Blocked
      end
  | LRecvQuit =>
      match bg s with
      | BgSelect =>
          if chClosed (quitChan (self (st s))) then
            let st1 :=
              emit (EvRecvQuit (data (mem (st s)) (buffer (self (st s)))))
                (st s) in
            match flushMetrics_swap st1 with
            | (st2, None) => bg_exit st2 (closer s)
            | (st2, Some d) =>
                Next {| st := st2; bg := BgWrite d true; closer := closer s |}
            end
          else Blocked
      | _ => Blocked
      end
  | LWrite r =>
      match bg s with
      | BgWrite d final =>
          let st1 := flushMetrics_write d r (st s) in
          if final then bg_exit st1 (closer s)
          else Next {| st := st1; bg := BgSelect; closer := closer s |}
      | _ => Blocked
      end
  | LClose =>
      match Close_signal (st s) with
      | Ok st1 => Next {| st := st1; bg := bg s; closer := CloseWaiting |}
      | Panic msg => Crash msg
      | Fail _ => Blocked
      end
  | LCloseWait r =>
      match closer s with
      | CloseWaiting =>
          match wg (self (st s)) with
          | 0 => Next {| st := Close_finish r (st s); bg := bg s;
                         closer := CloseReturned |}
          | S _ => Blocked
          end
      | _ => Blocked
      end
  end.

(** A schedule: the steps taken, first to last. *)
Fixpoint run (ls : list label) (s : system) : outcome :=
  match ls with
  | [] => Next s
  | l :: ls' =>
      match step l s with
      | Next s' => run ls' s'
      | o => o
      end
  end.

(** The program right after [New] has returned [st0]. *)
Definition boot (st0 : state) : system :=
  {| st := st0; bg := BgStart; closer := CloseNotCalled |}.

(** The states a client can be in: [New] succeeded, then any schedule. *)
Definition reachable (s : system) : Prop :=
  ∃ opts st0 ls, New opts None = Ok st0 ∧ run ls (boot st0) = Next s.

(** ** Notions used to state the properties *)

(** What the client's three slices show. *)
Definition buf (st : state) : list byte := data (mem st) (buffer (self st)).
Definition pre (st : state) : list byte := data (mem st) (prefix (self st)).
Definition dtags (st : state) : list byte := data (mem st) (tags (self st)).

(** The wire form of a tag sequence: [;key=value] for each tag. *)
Definition render (ts : list Tag) : list byte :=
  flat_map (fun t => ";"%char :: bytes (Key t) ++ "="%char :: bytes (Value t)) ts.

(** An append to [s] leaves [t] alone: [t] is valid and, when it shares
    the array of [s], shows no cell behind [len s]. *)
Definition apart (h : heap) (t s : slice) : Prop :=
  valid h t ∧ (arr t = arr s → len t ≤ len s).

(** The client's slices are valid and the buffer has an array of its
    own. *)
Definition wf (st : state) : Prop :=
  valid (mem st) (buffer (self st))
  ∧ valid (mem st) (prefix (self st))
  ∧ valid (mem st) (tags (self st))
  ∧ arr (prefix (self st)) ≠ arr (buffer (self st))
  ∧ arr (tags (self st)) ≠ arr (buffer (self st)).

(** The line [send] adds to the buffer in state [st]. *)
Definition line (st : state) (key value mt : string) : list byte :=
  pre st ++ bytes key ++ ":"%char :: bytes value ++ dtags st
    ++ "|"%char :: bytes mt ++ [LF].

(** [st'] is [st] after [xs] was appended to the buffer: nothing else
    that can be seen has changed. *)
Definition extends (st st' : state) (xs : list byte) : Prop :=
  wf st'
  ∧ buf st' = buf st ++ xs
  ∧ pre st' = pre st
  ∧ dtags st' = dtags st
  ∧ len (buffer (self st')) = len (buffer (self st)) + length xs
  ∧ log st' = log st
  ∧ self st' = set_buffer (buffer (self st')) (self st).

(** A client to try things on: what
    [New(Host("localhost"), Prefix("app"), MaxBufferSize(32))] returns. *)
Definition demo : state :=
  {| mem := [replicate 64 zero; bytes "app."; replicate 32 zero];
     self :=
       {| conn := {| remote := "localhost:8125"; connClosed := false |};
          buffer := Slice 0 0 64;
          maxBufferSize := 32;
          flushInterval := defaultFlushInterval;
          flushChan := make_chan 1;
          quitChan := make_chan 0;
          wg := 1;
          errorHandler := None;
          prefix := Slice 1 4 4;
          tags := Slice 2 0 32 |};
     log := [] |}.

Definition env_prod : Tag := {| Key := "env"; Value := "prod" |}.

(** The client of the end-to-end scenario: prefix ["app."] and the
    default tag [env=prod]. *)
Definition scenario : state :=
  match New [Prefix "app."; Tags [env_prod]] None with
  | Ok st0 => st0
  | _ => demo
  end.

(** [st'] is [st] but for the store and the buffer's header. *)
Definition framed (st st' : state) : Prop :=
  log st' = log st ∧ self st' = set_buffer (buffer (self st')) (self st).

(** The buffer is made of whole lines: it is the concatenation of lines
    that [send] encodes for this client. *)
Definition encoded (st : state) (l : list byte) : Prop :=
  ∃ key value mt, l = line st key value mt.

Definition structured (st : state) : Prop :=
  ∃ ls, buf st = concat ls ∧ Forall (encoded st) ls.





(** *** Reading the log *)

(** The events that are the background task's: its [select] cases, its
    writes, its return. *)
Definition isBg (e : event) : bool :=
  match e with
  | EvTick | EvRecvFlush | EvRecvQuit _ | EvWrite _ _ | EvBgExit => true
  | _ => false
  end.

Definition bgEvents (l : list event) : list event := List.filter isBg l.


Definition isRequest (e : event) : bool :=
  match e with EvRequest _ => true | _ => false end.

(** The events of a drain: a receive from either channel, a write. *)
Definition isDrain (e : event) : bool :=
  match e with
  | EvRecvFlush | EvRecvQuit _ | EvWrite _ _ => true
  | _ => false
  end.

(** The events of the shutdown after the close request. *)
Definition isFinal (e : event) : bool :=
  match e with
  | EvRecvQuit _ | EvBgExit | EvCloseReturn => true
  | _ => false
  end.

(** Events that can come at any time from the callers: a flush request
    from [send], a handler call, the close request, the connection's
    close. *)
Definition passive (e : event) : bool :=
  match e with
  | EvRequest _ | EvHandler _ _ | EvCloseSignal | EvConnClose _ => true
  | _ => false
  end.

Definition isnil {A} (l : list A) : bool :=
  match l with [] => true | _ => false end.

(** The four stages of a log (newest event first).  [before_quit]: the
    background task has not taken the [quitChan] case.  [draining]: it
    has, with a buffer that was not empty, and has not written yet.
    [exited]: it has returned, after the write of the final drain when
    there was one to make.  [returned]: [Close] has returned after
    that. *)
Definition before_quit (l : list event) : bool :=
  forallb (λ e, negb (isFinal e)) l.

Definition signalled (l : list event) : bool :=
  existsb (λ e, match e with EvCloseSignal => true | _ => false end) l.

Fixpoint draining (l : list event) : bool :=
  match l with
  | [] => false
  | EvRecvQuit res :: l' => negb (isnil res) && before_quit l' && signalled l'
  | e :: l' => passive e && draining l'
  end.

Fixpoint flushed (l : list event) : bool :=
  match l with
  | [] => false
  | EvRecvQuit res :: l' => isnil res && before_quit l' && signalled l'
  | EvWrite _ _ :: l' => draining l'
  | e :: l' => passive e && flushed l'
  end.

Fixpoint exited (l : list event) : bool :=
  match l with
  | [] => false
  | EvBgExit :: l' => flushed l'
  | e :: l' => passive e && exited l'
  end.

Fixpoint returned (l : list event) : bool :=
  match l with
  | [] => false
  | EvCloseReturn :: l' => exited l'
  | e :: l' => passive e && returned l'
  end.

(** How the log, the channels, the wait group and the two goroutines
    fit together. *)
Definition shape (s : system) : Prop :=
  let l := log (st s) in
  let c := self (st s) in
  chClosed (quitChan c) = signalled l
  ∧ (closer s = CloseNotCalled ↔ signalled l = false)
  ∧ match bg s with
    | BgExited =>
        wg c = 0
        ∧ match closer s with
          | CloseReturned => returned l = true
          | _ => exited l = true
          end
    | BgWrite _ true =>
        wg c = 1 ∧ closer s ≠ CloseReturned ∧ draining l = true
    | _ =>
        wg c = 1 ∧ closer s ≠ CloseReturned ∧ before_quit l = true
    end.

(** What holds in every state a client can be in. *)
Definition inv (s : system) : Prop :=
  wf (st s)
  ∧ structured (st s)
  ∧ chCap (flushChan (self (st s))) = 1
  ∧ chLen (flushChan (self (st s))) ≤ 1
  ∧ shape s.


(** *** Schedules to try things on *)

(** One metric, then [Close] and the final drain. *)
Definition close_schedule : list label :=
  [LStart; LSend "signup" "1" "c" []; LClose; LRecvQuit; LWrite None;
   LCloseWait None].

Definition closed_system : system :=
  match run close_schedule (boot scenario) with
  | Next s => s
  | _ => boot scenario
  end.

(** Two ticks of the timer with nothing received in between. *)
Definition ticked_system : system :=
  match run [LStart; LTick; LTick] (boot scenario) with
  | Next s => s
  | _ => boot scenario
  end.

(** Two metrics in the buffer, nothing else. *)
Definition quiet_schedule : list label :=
  [LSend "signup" "1" "c" []; LStart; LSend "load" "1.5" "g" []].

Definition quiet_system : system :=
  match run quiet_schedule (boot scenario) with
  | Next s => s
  | _ => boot scenario
  end.

(** [Close] has been called once. *)
Definition closing_system : system :=
  match step LClose (boot scenario) with
  | Next s => s
  | _ => boot scenario
  end.

(** ... and the background task has started and the timer ticked. *)
Definition closing_later : system :=
  match run [LStart; LTick] closing_system with
  | Next s => s
  | _ => closing_system
  end.

(** A [send] between the two parts of a [flushMetrics]. *)
Definition racing_schedule : list label :=
  [LStart; LSend "a" "1" "c" []; LTick; LRecvFlush; LSend "b" "2" "c" [];
   LWrite None].

Definition racing_system : system :=
  match run racing_schedule (boot scenario) with
  | Next s => s
  | _ => boot scenario
  end.


(** *** Notions for the properties beyond the claims *)

(** [st'] is [st] after [xs] was appended to the buffer, and moreover:
    every slice header that was valid still is; the buffer's capacity
    has not gone down; and when [xs] fitted in it, the buffer is over
    the same array as before. *)
Definition careful (st st' : state) (xs : list byte) : Prop :=
  extends st st' xs
  ∧ (∀ t, valid (mem st) t → valid (mem st') t)
  ∧ cap (buffer (self st)) ≤ cap (buffer (self st'))
  ∧ (len (buffer (self st)) + length xs ≤ cap (buffer (self st)) →
     arr (buffer (self st')) = arr (buffer (self st))
     ∧ cap (buffer (self st')) = cap (buffer (self st))).

(** A metric sent after [Close] has returned. *)
Definition late_system : system :=
  match run [LSend "late" "1" "c" []] closed_system with
  | Next s => s
  | _ => closed_system
  end.

(** A client with a flush interval of zero, and one metric sent. *)
Definition stalled : state :=
  match New [FlushInterval 0; MaxBufferSize 32] None with
  | Ok st0 => st0
  | _ => demo
  end.

Definition stalled_system : system :=
  match run [LSend "signup" "1" "c" []; LClose] (boot stalled) with
  | Next s => s
  | _ => boot stalled
  end.

(** Every write in the log handed over at least two bytes. *)
Definition writes_ok (l : list event) : Prop :=
  Forall (λ e, match e with EvWrite bs _ => 2 ≤ length bs | _ => True end) l.

(** The slice the background task holds between the two parts of a
    [flushMetrics] is valid and shows at least two bytes. *)
Definition writing_ok (s : system) : Prop :=
  match bg s with
  | BgWrite d _ => valid (mem (st s)) d ∧ 2 ≤ len d
  | _ => True
  end.

(** One metric in the buffer of [demo]; and what the first part of
    [flushMetrics] leaves and keeps there. *)
Definition sent_once : state := Increment "a" [] demo.

Definition kept_state : state := (flushMetrics_swap sent_once).1.

Definition kept_slice : slice := Slice 0 9 64.

(** The bytes the writes of a log (newest event first) have handed over,
    oldest first, each write followed by the line terminator it left
    out. *)
Fixpoint written (l : list event) : list byte :=
  match l with
  | [] => []
  | e :: l' =>
      written l' ++ match e with
                    | EvWrite bs _ => bs ++ [LF]
                    | _ => []
                    end
  end.

(** The bytes that are still to be written: those a pending write will
    hand over, with their terminator, and the buffer. *)
Definition pending (s : system) : list byte :=
  match bg s with
  | BgWrite d _ => data (mem (st s)) d ++ [LF]
  | _ => []
  end ++ buf (st s).

(** The lines of the [send]s of a schedule, for a client with the
    prefix [p]. *)
Definition sent (p : list byte) (ls : list label) : list byte :=
  flat_map
    (λ l, match l with
          | LSend key value mt _ =>
              p ++ bytes key ++ ":"%char :: bytes value
                ++ "|"%char :: bytes mt ++ [LF]
          | _ => []
          end)
    ls.

(** No [send] runs between the two parts of a [flushMetrics]. *)
Fixpoint race_free (ls : list label) (s : system) : Prop :=
  match ls with
  | [] => True
  | l :: ls' =>
      match l, bg s with
      | LSend _ _ _ _, BgWrite _ _ => False
      | _, _ => True
      end
      ∧ match step l s with
        | Next s' => race_free ls' s'
        | _ => True
        end
  end.

(** Two metrics, a drain, a third metric, [Close] and the final drain. *)
Definition orderly_schedule : list label :=
  [LStart; LSend "a" "1" "c" []; LSend "b" "2" "c" []; LTick; LRecvFlush;
   LWrite None; LSend "c" "3" "c" []; LClose; LRecvQuit; LWrite None;
   LCloseWait None].

Definition orderly_system : system :=
  match run orderly_schedule (boot scenario) with
  | Next s => s
  | _ => boot scenario
  end.

(** How many requests have been queued on [flushChan], and how many the
    background task has taken from it. *)
Definition queued (l : list event) : nat :=
  length (List.filter
            (λ e, match e with EvRequest true => true | _ => false end) l).

Definition taken (l : list event) : nat :=
  length (List.filter
            (λ e, match e with EvRecvFlush => true | _ => false end) l).

(** How far [Close] and the background task have come. *)
Definition close_rank (c : closeState) : nat :=
  match c with
  | CloseNotCalled => 0
  | CloseWaiting => 1
  | CloseReturned => 2
  end.

Definition bg_rank (b : bgState) : nat :=
  match b with
  | BgStart => 0
  | BgSelect => 1
  | BgWrite _ false => 1
  | BgWrite _ true => 2
  | BgExited => 3
  end.

(** A log (newest event first) in which errors have gone where the
    handler [h] says: a handler call is a call of [h] with the error of
    the failed write or close right before it, and a failed write or
    close with no call after it means there is no handler. *)
Fixpoint reports (h : option handler) (l : list event) : Prop :=
  match l with
  | [] => True
  | EvHandler f err :: l' =>
      h = Some f
      ∧ match l' with
        | EvWrite _ (Some err') :: l'' => err' = err ∧ reports h l''
        | EvConnClose (Some err') :: l'' => err' = err ∧ reports h l''
        | _ => False
        end
  | EvWrite _ (Some _) :: l' => h = None ∧ reports h l'
  | EvConnClose (Some _) :: l' => h = None ∧ reports h l'
  | _ :: l' => reports h l'
  end.

(** A client with an error handler, and a schedule in which the write
    of a drain and the closing of the connection both fail. *)
Definition watched : state :=
  match New [ErrorHandler (Some (Handler 7)); Prefix "app"] None with
  | Ok st0 => st0
  | _ => demo
  end.

Definition failing_schedule : list label :=
  [LStart; LSend "a" "1" "c" []; LTick; LRecvFlush;
   LWrite (Some (Error "connection refused")); LClose; LRecvQuit;
   LCloseWait (Some (Error "already closed"))].

Definition failed_system : system :=
  match run failing_schedule (boot watched) with
  | Next s => s
  | _ => boot watched
  end.

(** *** Tactics *)

(** Case analysis on a step that is not a [send]: the state is taken
    apart and every test the step makes is decided. *)
Ltac step_cases H :=
  unfold step, flushMetrics_swap, flushMetrics_write, bg_exit, Close_signal,
    Close_finish in H;
  simpl in H;
  repeat case_match; simplify_eq; simpl in *.

(** Induction on a log, by cases on its newest event. *)
Ltac stage_induction l :=
  induction l as [|[] l IH]; simpl; rewrite ?andb_true_iff;
  try done; intros; destruct_and?; rewrite ?orb_true_r; eauto.

(** Taking [shape] apart in the hypotheses and in the goal. *)
Ltac shape_auto :=
  subst; unfold shape in *; simpl in *;
  repeat match goal with
         | H : _ ∧ _ |- _ => destruct H
         | H : _ && _ = true |- _ => apply andb_prop in H
         end;
  rewrite ?andb_true_r in *;
  try (split_and!; try done; try congruence; try (by intuition congruence)).

(** * Properties *)

(** ** Slices *)

Lemma append_len h s xs :
  len (append h s xs).2 = len s + length xs.
Proof. unfold append. case_decide; reflexivity. Qed.

Lemma append_valid h s xs :
  valid h s → valid (append h s xs).1 (append h s xs).2.
Proof.
  intros (a & Ha & Hl & Hle). unfold append, valid.
  case_decide as Hn; simpl.
  - exists (take (len s) a ++ xs ++ drop (len s + length xs) a).
    rewrite Ha; simpl. split_and!.
    + apply list_lookup_insert_eq. by eapply lookup_lt_Some.
    + rewrite !length_app, length_take, length_drop. lia.
    + done.
  - eexists. split_and!.
    + rewrite lookup_app_r by done. by rewrite Nat.sub_diag.
    + unfold data, growslice. rewrite Ha; simpl.
      rewrite !length_app, length_take, length_replicate. lia.
    + unfold growslice. lia.
Qed.

Lemma append_data h s xs :
  valid h s →
  data (append h s xs).1 (append h s xs).2 = data h s ++ xs.
Proof.
  intros (a & Ha & Hl & Hle). unfold append, data.
  case_decide as Hn; simpl.
  - rewrite list_lookup_insert_eq by (by eapply lookup_lt_Some).
    rewrite Ha; simpl.
    rewrite app_assoc, take_app_length'; [done|].
    rewrite length_app, length_take. lia.
  - rewrite lookup_app_r by done. rewrite Nat.sub_diag; simpl.
    rewrite Ha; simpl.
    rewrite app_assoc, take_app_length'; [done|].
    rewrite length_app, length_take. lia.
Qed.

Lemma append_apart h s t xs :
  valid h s → apart h t s →
  data (append h s xs).1 t = data h t
  ∧ apart (append h s xs).1 t (append h s xs).2.
Proof.
  intros (a & Ha & Hl & Hle) [(b & Hb & Hbl & Hble) Hts].
  unfold append, data, apart, valid.
  case_decide as Hn; simpl.
  - destruct (decide (arr t = arr s)) as [E|E].
    + specialize (Hts E). rewrite E in *.
      rewrite list_lookup_insert_eq by (by eapply lookup_lt_Some).
      rewrite Ha in *; simpl. simplify_eq. split.
      * rewrite take_app_le by (rewrite length_take; lia).
        rewrite take_take. f_equal. lia.
      * split; [|lia]. eexists. split_and!; [done| |done].
        rewrite !length_app, length_take, length_drop. lia.
    + rewrite list_lookup_insert_ne by done. split; [done|].
      split; [by eauto|done].
  - assert (arr t < length h) by (by eapply lookup_lt_Some).
    rewrite lookup_app_l by done. split; [done|].
    split; [by eauto|lia].
Qed.

(** The facts about one [append], for a call written as an equation. *)
Lemma append_spec h s xs h' s' :
  valid h s → append h s xs = (h', s') →
  valid h' s'
  ∧ data h' s' = data h s ++ xs
  ∧ len s' = len s + length xs
  ∧ (arr s' = arr s ∨ arr s' = length h)
  ∧ ∀ t, apart h t s → data h' t = data h t ∧ apart h' t s'.
Proof.
  intros Hv E.
  pose proof (append_valid h s xs Hv) as H1.
  pose proof (append_data h s xs Hv) as H2.
  pose proof (append_len h s xs) as H3.
  pose proof (λ t, append_apart h s t xs Hv) as H4.
  rewrite E in *; simpl in *. split_and!; try done.
  unfold append in E. case_decide; simplify_eq; simpl; auto.
Qed.

(** A valid slice over another array than [s] is apart from [s]. *)
Lemma apart_other h t s : valid h t → arr t ≠ arr s → apart h t s.
Proof. intros Hv Hne. split; [done | intros E; by destruct Hne]. Qed.

Lemma apart_refl h s : valid h s → apart h s s.
Proof. intros Hv. split; [done | lia]. Qed.

(** ** [serializeTagsTo] *)

(** The loop is right about its own variable: at its end [buffer] shows
    what it showed at the start followed by the rendered tags; and no
    slice apart from the starting one has changed. *)
Lemma serializeTagsTo_loop_spec ts : ∀ h b h' b',
  valid h b → serializeTagsTo_loop ts h b = (h', b') →
  valid h' b'
  ∧ data h' b' = data h b ++ render ts
  ∧ ∀ t, apart h t b → data h' t = data h t ∧ apart h' t b'.
Proof.
  induction ts as [|tag rest IH]; intros h b h' b' Hv E; simpl in E.
  - simplify_eq. simpl. rewrite app_nil_r. by split_and!.
  - destruct (append h b [";"%char]) as [h1 b1] eqn:E1.
    destruct (append h1 b1 (bytes (Key tag))) as [h2 b2] eqn:E2.
    destruct (append h2 b2 ["="%char]) as [h3 b3] eqn:E3.
    destruct (append h3 b3 (bytes (Value tag))) as [h4 b4] eqn:E4.
    destruct (append_spec _ _ _ _ _ Hv E1) as (V1 & D1 & _ & _ & A1).
    destruct (append_spec _ _ _ _ _ V1 E2) as (V2 & D2 & _ & _ & A2).
    destruct (append_spec _ _ _ _ _ V2 E3) as (V3 & D3 & _ & _ & A3).
    destruct (append_spec _ _ _ _ _ V3 E4) as (V4 & D4 & _ & _ & A4).
    destruct (IH _ _ _ _ V4 E) as (V5 & D5 & A5).
    split_and!; [done| |].
    + rewrite D5, D4, D3, D2, D1. simpl. by rewrite <- !app_assoc.
    + intros t At.
      destruct (A1 t At) as [Q1 At1]. destruct (A2 t At1) as [Q2 At2].
      destruct (A3 t At2) as [Q3 At3]. destruct (A4 t At3) as [Q4 At4].
      destruct (A5 t At4) as [Q5 At5].
      split; [congruence | done].
Qed.

Lemma serializeTagsTo_self b ts st : self (serializeTagsTo b ts st) = self st.
Proof. unfold serializeTagsTo. by destruct (serializeTagsTo_loop _ _ _). Qed.

Lemma serializeTagsTo_log b ts st : log (serializeTagsTo b ts st) = log st.
Proof. unfold serializeTagsTo. by destruct (serializeTagsTo_loop _ _ _). Qed.

(** What the caller is left with: every slice apart from the one passed
    in shows what it showed, and that includes the passed header
    itself. *)
Lemma serializeTagsTo_apart b ts st t :
  valid (mem st) b → apart (mem st) t b →
  data (mem (serializeTagsTo b ts st)) t = data (mem st) t
  ∧ valid (mem (serializeTagsTo b ts st)) t.
Proof.
  intros Hv At. unfold serializeTagsTo.
  destruct (serializeTagsTo_loop ts (mem st) b) as [h' b'] eqn:E.
  destruct (serializeTagsTo_loop_spec _ _ _ _ _ Hv E) as (_ & _ & A).
  destruct (A t At) as [Q [V _]]. by split.
Qed.

Lemma serializeTagsTo_wf ts st :
  wf st →
  wf (serializeTagsTo (buffer (self st)) ts st)
  ∧ buf (serializeTagsTo (buffer (self st)) ts st) = buf st
  ∧ pre (serializeTagsTo (buffer (self st)) ts st) = pre st
  ∧ dtags (serializeTagsTo (buffer (self st)) ts st) = dtags st.
Proof.
  intros (Vb & Vp & Vt & Np & Nt).
  destruct (serializeTagsTo_apart (buffer (self st)) ts st _ Vb (apart_refl _ _ Vb))
    as [Qb Vb'].
  destruct (serializeTagsTo_apart (buffer (self st)) ts st _ Vb (apart_other _ _ _ Vp Np))
    as [Qp Vp'].
  destruct (serializeTagsTo_apart (buffer (self st)) ts st _ Vb (apart_other _ _ _ Vt Nt))
    as [Qt Vt'].
  unfold wf, buf, pre, dtags. rewrite !serializeTagsTo_self. by split_and!.
Qed.

(** ** [send] *)

Lemma append_buffer_log xs st : log (append_buffer xs st) = log st.
Proof. unfold append_buffer. by destruct (append _ _ _). Qed.

Lemma append_buffer_self xs st :
  self (append_buffer xs st)
  = set_buffer (buffer (self (append_buffer xs st))) (self st).
Proof. unfold append_buffer. by destruct (append _ _ _). Qed.

Lemma append_buffer_spec xs st :
  wf st →
  wf (append_buffer xs st)
  ∧ buf (append_buffer xs st) = buf st ++ xs
  ∧ pre (append_buffer xs st) = pre st
  ∧ dtags (append_buffer xs st) = dtags st
  ∧ len (buffer (self (append_buffer xs st)))
    = len (buffer (self st)) + length xs.
Proof.
  intros (Vb & Vp & Vt & Np & Nt).
  unfold wf, buf, pre, dtags, append_buffer.
  destruct (append (mem st) (buffer (self st)) xs) as [h' b'] eqn:E.
  destruct (append_spec _ _ _ _ _ Vb E) as (V' & D' & L' & Ar & A).
  destruct (A _ (apart_other _ _ _ Vp Np)) as [Qp [Vp' _]].
  destruct (A _ (apart_other _ _ _ Vt Nt)) as [Qt [Vt' _]].
  simpl. split_and!; try done.
  - destruct Ar as [-> | ->]; [done|].
    destruct Vp as (a & Ha & _). apply lookup_lt_Some in Ha. lia.
  - destruct Ar as [-> | ->]; [done|].
    destruct Vt as (a & Ha & _). apply lookup_lt_Some in Ha. lia.
Qed.

Lemma extends_append_buffer xs st : wf st → extends st (append_buffer xs st) xs.
Proof.
  intros W. destruct (append_buffer_spec xs st W) as (W1 & B1 & P1 & T1 & L1).
  split_and!; try done.
  - apply append_buffer_log.
  - apply append_buffer_self.
Qed.

Lemma extends_serializeTagsTo ts st :
  wf st → extends st (serializeTagsTo (buffer (self st)) ts st) [].
Proof.
  intros W. destruct (serializeTagsTo_wf ts st W) as (W1 & B1 & P1 & T1).
  split_and!; try done.
  - by rewrite app_nil_r.
  - rewrite serializeTagsTo_self. simpl. lia.
  - apply serializeTagsTo_log.
  - rewrite serializeTagsTo_self. by destruct (self st).
Qed.

Lemma extends_trans a b c xs ys :
  extends a b xs → extends b c ys → extends a c (xs ++ ys).
Proof.
  intros (W1 & B1 & P1 & T1 & L1 & G1 & S1) (W2 & B2 & P2 & T2 & L2 & G2 & S2).
  split_and!; try congruence.
  - by rewrite B2, B1, app_assoc.
  - rewrite L2, L1, length_app. lia.
  - rewrite S2, S1. reflexivity.
Qed.

Lemma extends_wf a b xs : extends a b xs → wf b.
Proof. by intros [W _]. Qed.

Lemma extends_eq a b xs ys : extends a b xs → xs = ys → extends a b ys.
Proof. by intros H <-. Qed.

Lemma extends_append_tags st :
  wf st →
  extends st (append_buffer (data (mem st) (tags (self st))) st) (dtags st).
Proof. apply extends_append_buffer. Qed.

(** [send] up to its size check: the nine statements that write add one
    line to the buffer; then comes the check. *)
Lemma send_body_spec key value mt ts st :
  wf st →
  ∃ st',
    send key value mt ts st
    = (if decide (maxBufferSize (self st') ≤ Z.of_nat (len (buffer (self st'))))%Z
       then requestFlush st' else st')
    ∧ extends st st' (line st key value mt).
Proof.
  intros W0. eexists. split; [unfold send; cbv zeta; reflexivity|].
  pose proof (extends_append_buffer (data (mem st) (prefix (self st))) st W0) as E1.
  pose proof (extends_trans _ _ _ _ _ E1
    (extends_append_buffer (bytes key) _ (extends_wf _ _ _ E1))) as E2.
  pose proof (extends_trans _ _ _ _ _ E2
    (extends_append_buffer [":"%char] _ (extends_wf _ _ _ E2))) as E3.
  pose proof (extends_trans _ _ _ _ _ E3
    (extends_append_buffer (bytes value) _ (extends_wf _ _ _ E3))) as E4.
  pose proof (extends_trans _ _ _ _ _ E4
    (extends_append_tags _ (extends_wf _ _ _ E4))) as E5.
  pose proof (extends_trans _ _ _ _ _ E5
    (extends_serializeTagsTo ts _ (extends_wf _ _ _ E5))) as E6.
  pose proof (extends_trans _ _ _ _ _ E6
    (extends_append_buffer ["|"%char] _ (extends_wf _ _ _ E6))) as E7.
  pose proof (extends_trans _ _ _ _ _ E7
    (extends_append_buffer (bytes mt) _ (extends_wf _ _ _ E7))) as E8.
  pose proof (extends_trans _ _ _ _ _ E8
    (extends_append_buffer [LF] _ (extends_wf _ _ _ E8))) as E9.
  destruct E4 as (_ & _ & _ & T4 & _).
  eapply extends_eq; [exact E9|].
  rewrite T4. unfold line, pre. rewrite app_nil_r, <- !app_assoc. reflexivity.
Qed.

(** ** [New] *)

Lemma length_bytes s : length (bytes s) = String.length s.
Proof. unfold bytes. induction s as [|a s IH]; simpl; congruence. Qed.

Lemma make_cap_spec h c h' s :
  make_cap h c = Some (h', s) →
  h' = h ++ [replicate (Z.to_nat c) zero] ∧ s = Slice (length h) 0 (Z.to_nat c).
Proof.
  unfold make_cap, make. destruct (decide _); [|done]. by intros [= <- <-].
Qed.

(** The client [New] returns: an empty buffer, the prefix of the
    configuration, and a [tags] slice that shows nothing, whatever tags
    were configured. *)
Lemma New_spec opts st0 :
  New opts None = Ok st0 →
  wf st0
  ∧ buf st0 = []
  ∧ pre st0 = bytes (Options.prefix (configure opts))
  ∧ dtags st0 = []
  ∧ log st0 = []
  ∧ flushChan (self st0) = Chan 1 0 false
  ∧ quitChan (self st0) = Chan 0 0 false
  ∧ wg (self st0) = 1
  ∧ maxBufferSize (self st0) = Options.maxBufferSize (configure opts)
  ∧ flushInterval (self st0) = Options.flushInterval (configure opts)
  ∧ errorHandler (self st0) = Options.errorHandler (configure opts)
  ∧ connClosed (conn (self st0)) = false.
Proof.
  unfold New. set (o := configure opts).
  destruct (make_cap [] _) as [[h1 b]|] eqn:E1; [|done].
  apply make_cap_spec in E1 as [-> ->].
  unfold of_string.
  destruct (make_cap _ (Options.maxBufferSize o)) as [[h3 t]|] eqn:E3; [|done].
  apply make_cap_spec in E3 as [-> ->].
  intros [= <-]. simpl.
  set (c := Z.to_nat (wrap64 (Options.maxBufferSize o * bufferCapFactor))).
  set (m := Z.to_nat (Options.maxBufferSize o)).
  set (h := [replicate c zero; bytes (Options.prefix o); replicate m zero]).
  set (cl := Build_Client _ _ _ _ _ _ _ _ _ _).
  set (st1 := Build_state h cl []).
  assert (Vb : valid h (Slice 0 0 c)).
  { exists (replicate c zero). simpl. rewrite length_replicate. split_and!; [done|done|lia]. }
  assert (Vp : valid h (Slice 1 (String.length (Options.prefix o))
                          (String.length (Options.prefix o)))).
  { exists (bytes (Options.prefix o)). simpl.
    split_and!; [done|apply length_bytes|done]. }
  assert (Vt : valid h (Slice 2 0 m)).
  { exists (replicate m zero). simpl. rewrite length_replicate. split_and!; [done|done|lia]. }
  destruct (serializeTagsTo_apart (Slice 2 0 m) (Options.tags o) st1 _ Vt
              (apart_refl _ _ Vt)) as [Qt Vt'].
  destruct (serializeTagsTo_apart (Slice 2 0 m) (Options.tags o) st1 (Slice 0 0 c) Vt)
    as [Qb Vb']; [by apply apart_other|].
  destruct (serializeTagsTo_apart (Slice 2 0 m) (Options.tags o) st1
              (Slice 1 (String.length (Options.prefix o))
                 (String.length (Options.prefix o))) Vt)
    as [Qp Vp']; [by apply apart_other|].
  unfold wf, buf, pre, dtags, startBackgroundFlusher; simpl.
  rewrite !serializeTagsTo_self, serializeTagsTo_log. simpl.
  rewrite Qb, Qp, Qt. split_and!; try done.
  unfold data; simpl. apply take_ge. by rewrite length_bytes.
Qed.

Example New_demo :
  New [Host "localhost"; Prefix "app"; MaxBufferSize 32] None = Ok demo.
Proof. reflexivity. Qed.

Example New_scenario : New [Prefix "app."; Tags [env_prod]] None = Ok scenario.
Proof. reflexivity. Qed.

Lemma wf_demo : wf demo.
Proof.
  unfold wf, valid; simpl.
  split_and!; try done; eexists; (split_and!; [reflexivity|reflexivity|lia]).
Qed.

(** ** [requestFlush] *)

Lemma requestFlush_mem st : mem (requestFlush st) = mem st.
Proof. unfold requestFlush. by case_decide. Qed.

Lemma requestFlush_self st :
  self (requestFlush st)
  = set_flushChan (flushChan (self (requestFlush st))) (self st).
Proof.
  unfold requestFlush. case_decide; simpl; [done|]. by destruct (self st).
Qed.

(** The signal is queued when there is a free slot and dropped when
    there is none; either way the call returns. *)
Lemma requestFlush_chan st :
  flushChan (self (requestFlush st))
  = (if decide (chLen (flushChan (self st)) < chCap (flushChan (self st)))
     then Chan (chCap (flushChan (self st))) (S (chLen (flushChan (self st))))
            (chClosed (flushChan (self st)))
     else flushChan (self st))
  ∧ log (requestFlush st)
    = EvRequest (bool_decide (chLen (flushChan (self st))
                              < chCap (flushChan (self st)))) :: log st.
Proof.
  unfold requestFlush. case_decide.
  - by rewrite bool_decide_eq_true_2.
  - by rewrite bool_decide_eq_false_2.
Qed.

Lemma requestFlush_views st :
  buf (requestFlush st) = buf st
  ∧ pre (requestFlush st) = pre st
  ∧ dtags (requestFlush st) = dtags st
  ∧ (wf st → wf (requestFlush st)).
Proof.
  unfold buf, pre, dtags, wf.
  rewrite requestFlush_mem, requestFlush_self. by simpl.
Qed.

(** ** [send], whole *)

Lemma send_spec key value mt ts st :
  wf st →
  wf (send key value mt ts st)
  ∧ buf (send key value mt ts st) = buf st ++ line st key value mt
  ∧ pre (send key value mt ts st) = pre st
  ∧ dtags (send key value mt ts st) = dtags st
  ∧ len (buffer (self (send key value mt ts st)))
    = len (buffer (self st)) + length (line st key value mt).
Proof.
  intros W.
  destruct (send_body_spec key value mt ts st W)
    as (st' & -> & W' & B & P & T & L & _).
  destruct (requestFlush_views st') as (B' & P' & T' & W'').
  case_decide; [|done].
  rewrite B', P', T', requestFlush_self. simpl. auto.
Qed.

(** ** C2: the tag serializer *)

(** C2 (the code departs from the claim).  The loop does put [;key=value]
    for each tag, in order, behind what its variable [buffer] shows; but
    that variable is the function's own, and for the caller the
    destination shows after the call exactly the bytes it showed before,
    for every tag sequence: nothing has been appended to it. *)
Theorem serializeTagsTo_destination dest ts st :
  valid (mem st) dest →
  data (mem (serializeTagsTo dest ts st)) dest = data (mem st) dest
  ∧ self (serializeTagsTo dest ts st) = self st
  ∧ ∃ h' buffer',
      serializeTagsTo_loop ts (mem st) dest = (h', buffer')
      ∧ data h' buffer' = data (mem st) dest ++ render ts.
Proof.
  intros V. split_and!.
  - by apply serializeTagsTo_apart, apart_refl.
  - apply serializeTagsTo_self.
  - destruct (serializeTagsTo_loop ts (mem st) dest) as [h' b'] eqn:E.
    exists h', b'. split; [done|].
    by destruct (serializeTagsTo_loop_spec _ _ _ _ _ V E) as (_ & D & _).
Qed.

Lemma serializeTagsTo_destination_witness :
  valid (mem demo) (tags (self demo))
  ∧ data (mem (serializeTagsTo (tags (self demo)) [env_prod] demo))
      (tags (self demo)) = [].
Proof.
  assert (V : valid (mem demo) (tags (self demo))) by apply wf_demo.
  split; [exact V|].
  exact (proj1 (serializeTagsTo_destination (tags (self demo)) [env_prod] demo V)).
Defined.

(** ** C3: drain and send *)

Lemma valid_buf_nil st :
  valid (mem st) (buffer (self st)) →
  (buf st = [] ↔ len (buffer (self st)) = 0)
  ∧ length (buf st) = len (buffer (self st)).
Proof.
  intros (a & Ha & Hl & Hle). unfold buf, data. rewrite Ha; simpl.
  assert (L : length (take (len (buffer (self st))) a) = len (buffer (self st)))
    by (rewrite length_take; lia).
  split; [|done]. split.
  - intros E. by rewrite E in L.
  - intros E. by rewrite E.
Qed.

(** The two parts of [flushMetrics], on any state with a valid buffer. *)
Lemma flushMetrics_spec r st :
  valid (mem st) (buffer (self st)) →
  (buf st = [] → flushMetrics_swap st = (st, None) ∧ flushMetrics r st = st)
  ∧ (buf st ≠ [] →
     ∃ st1 d,
       flushMetrics_swap st = (st1, Some d)
       ∧ len (buffer (self st1)) = 0
       ∧ buf st1 = []
       ∧ log st1 = log st
       ∧ data (mem st1) d = removelast (buf st)
       ∧ (∀ bs, buf st = bs ++ [LF] → data (mem st1) d = bs)
       ∧ flushMetrics r st = flushMetrics_write d r st1
       ∧ log (flushMetrics r st)
         = match r, errorHandler (self st) with
           | Some err, Some f => [EvHandler f err]
           | _, _ => []
           end ++ EvWrite (removelast (buf st)) r :: log st
       ∧ buf (flushMetrics r st) = []
       ∧ len (buffer (self (flushMetrics r st))) = 0).
Proof.
  intros V. destruct (valid_buf_nil st V) as [Hnil Hlen].
  destruct V as (a & Ha & Hl & Hle).
  unfold flushMetrics, flushMetrics_swap. split.
  - intros E. apply Hnil in E. by rewrite decide_True.
  - intros NE. rewrite decide_False by (by rewrite <- Hnil).
    assert (D : data (mem st) (reslice (buffer (self st))
                                 (len (buffer (self st)) - 1))
                = removelast (buf st)).
    { rewrite removelast_firstn_len, Hlen. unfold buf, data; simpl.
      rewrite Ha; simpl. rewrite take_take. f_equal. lia. }
    eexists _, _. split; [reflexivity|]. simpl.
    split_and!; try done.
    + intros bs E. rewrite D, E. apply removelast_last.
    + unfold flushMetrics_write; simpl. rewrite D.
      by destruct r, (errorHandler (self st)).
    + unfold flushMetrics_write; simpl.
      by destruct r, (errorHandler (self st)).
    + unfold flushMetrics_write; simpl.
      by destruct r, (errorHandler (self st)).
Qed.



(** ** C5: a counter of zero *)

(** C5.  [Count] with the value zero returns the state it was given:
    the store, the buffer, every field of the client and the log are the
    same, and so is everything any schedule does afterwards. *)
Theorem Count_zero key ts :
  (∀ st, Count key 0 ts st = st)
  ∧ ∀ s ls,
      run ls {| st := Count key 0 ts (st s); bg := bg s; closer := closer s |}
      = run ls s.
Proof.
  split; [done|]. intros [st0 b c] ls. reflexivity.
Qed.

(** ** C10: zero values that are sent *)

Lemma Milliseconds_small d :
  (-1000000 < d < 1000000)%Z → Milliseconds d = 0%Z.
Proof.
  intros H. unfold Milliseconds. apply Z.quot_small_iff; lia.
Qed.

(** C10.  A gauge of (positive) zero and a timing of less than a
    millisecond, in either direction, are sent with the value [0]:
    each adds its line to the buffer, where [Count] with zero adds
    nothing.  The milliseconds are the quotient rounded toward zero. *)
Theorem zero_values_are_sent shortest key ts st d :
  wf st →
  (-1000000 < d < 1000000)%Z →
  Gauge shortest key (S754_zero false) ts st = send key "0" "g" ts st
  ∧ buf (Gauge shortest key (S754_zero false) ts st)
    = buf st ++ line st key "0" "g"
  ∧ Timing key d ts st = send key "0" "ms" ts st
  ∧ buf (Timing key d ts st) = buf st ++ line st key "0" "ms"
  ∧ Count key 0 ts st = st.
Proof.
  intros W Hd.
  assert (T : Timing key d ts st = send key "0" "ms" ts st).
  { unfold Timing. rewrite Milliseconds_small by exact Hd. reflexivity. }
  assert (G : Gauge shortest key (S754_zero false) ts st = send key "0" "g" ts st)
    by reflexivity.
  split; [exact G|]. split.
  { rewrite G. exact (proj1 (proj2 (send_spec key "0" "g" ts st W))). }
  split; [exact T|]. split.
  { rewrite T. exact (proj1 (proj2 (send_spec key "0" "ms" ts st W))). }
  reflexivity.
Qed.

Lemma zero_values_are_sent_witness :
  wf demo
  ∧ (-1000000 < 999999 < 1000000)%Z
  ∧ buf (Timing "query" 999999 [] demo) = bytes "app.query:0|ms" ++ [LF].
Proof.
  split; [exact wf_demo|]. split; [lia|].
  rewrite (proj1 (proj2 (proj2 (proj2
    (zero_values_are_sent (λ _ _, ""%string) "query" [] demo 999999
       wf_demo (conj eq_refl eq_refl)))))).
  vm_compute. reflexivity.
Defined.

(** ** What [send] leaves alone *)

Lemma framed_append_buffer xs st : framed st (append_buffer xs st).
Proof. split; [apply append_buffer_log | apply append_buffer_self]. Qed.

Lemma framed_serializeTagsTo b ts st : framed st (serializeTagsTo b ts st).
Proof.
  split; [apply serializeTagsTo_log|].
  rewrite serializeTagsTo_self. by destruct (self st).
Qed.

Lemma framed_trans a b c : framed a b → framed b c → framed a c.
Proof.
  intros [L1 S1] [L2 S2]. split; [congruence|].
  rewrite S2, S1. reflexivity.
Qed.

(** [send] is its nine writing statements, which touch the store and the
    buffer's header only, and then the size check.  This needs nothing of
    the state. *)
Lemma send_frame key value mt ts st :
  ∃ st',
    send key value mt ts st
    = (if decide (maxBufferSize (self st') ≤ Z.of_nat (len (buffer (self st'))))%Z
       then requestFlush st' else st')
    ∧ framed st st'.
Proof.
  eexists. split; [unfold send; cbv zeta; reflexivity|].
  do 3 (eapply framed_trans; [|apply framed_append_buffer]).
  eapply framed_trans; [|apply framed_serializeTagsTo].
  do 4 (eapply framed_trans; [|apply framed_append_buffer]).
  apply framed_append_buffer.
Qed.

(** What [send] does besides writing, as equations: it calls
    [requestFlush] exactly when the buffer it leaves has reached
    [maxBufferSize]; the call queues the signal if the slot is free and
    drops it if not. *)
Lemma send_effect key value mt ts st :
  let st2 := send key value mt ts st in
  let full := decide (maxBufferSize (self st2)
                      ≤ Z.of_nat (len (buffer (self st2))))%Z in
  let free := decide (chLen (flushChan (self st)) < chCap (flushChan (self st))) in
  log st2
  = (if full then [EvRequest (bool_decide (chLen (flushChan (self st))
                                           < chCap (flushChan (self st))))]
     else []) ++ log st
  ∧ flushChan (self st2)
    = (if full then
         if free then Chan (chCap (flushChan (self st)))
                        (S (chLen (flushChan (self st))))
                        (chClosed (flushChan (self st)))
         else flushChan (self st)
       else flushChan (self st))
  ∧ self st2
    = set_flushChan (flushChan (self st2))
        (set_buffer (buffer (self st2)) (self st)).
Proof.
  destruct (send_frame key value mt ts st) as (st' & E & L & HS).
  cbv zeta. rewrite E. clear E.
  destruct (requestFlush_chan st') as [C G].
  pose proof (requestFlush_self st') as R.
  assert (F : flushChan (self st') = flushChan (self st))
    by (rewrite HS; reflexivity).
  destruct (decide (maxBufferSize (self st')
                    ≤ Z.of_nat (len (buffer (self st'))))%Z) as [Hf|Hf].
  - assert (B : buffer (self (requestFlush st')) = buffer (self st'))
      by (rewrite R; reflexivity).
    assert (M : maxBufferSize (self (requestFlush st')) = maxBufferSize (self st'))
      by (rewrite R; reflexivity).
    rewrite B, M.
    destruct (decide (maxBufferSize (self st')
                      ≤ Z.of_nat (len (buffer (self st'))))%Z); [|done].
    split; [rewrite G, F, L; reflexivity|].
    split; [rewrite C, F; reflexivity|].
    rewrite R at 1. f_equal. exact HS.
  - destruct (decide (maxBufferSize (self st')
                      ≤ Z.of_nat (len (buffer (self st'))))%Z); [done|].
    rewrite L, F. split; [reflexivity|]. split; [reflexivity|].
    rewrite HS at 1. by destruct (self st).
Qed.

(** ** [send] and the store *)

Lemma append_keeps_valid h s xs t :
  valid h s → valid h t → valid (append h s xs).1 t.
Proof.
  intros (a & Ha & Hl & Hle) (b & Hb & Hbl & Hble). unfold append, valid.
  case_decide as Hn; simpl.
  - destruct (decide (arr t = arr s)) as [E|E].
    + rewrite E in Hb. assert (b = a) as -> by congruence.
      exists (take (len s) a ++ xs ++ drop (len s + length xs) a).
      split_and!; [|rewrite !length_app, length_take, length_drop; lia|done].
      rewrite E, Ha; simpl. apply list_lookup_insert_eq. by eapply lookup_lt_Some.
    + exists b. by rewrite list_lookup_insert_ne.
  - exists b. split_and!; [|done|done].
    rewrite lookup_app_l; [done|]. by eapply lookup_lt_Some.
Qed.

Lemma append_in_place h s xs :
  len s + length xs ≤ cap s →
  arr (append h s xs).2 = arr s ∧ cap (append h s xs).2 = cap s.
Proof. intros H. unfold append. by rewrite decide_True. Qed.

Lemma append_cap h s xs : cap s ≤ cap (append h s xs).2.
Proof. unfold append, growslice. case_decide; simpl; lia. Qed.

Lemma serializeTagsTo_loop_keeps_valid ts : ∀ h b t,
  valid h b → valid h t → valid (serializeTagsTo_loop ts h b).1 t.
Proof.
  induction ts as [|tag rest IH]; intros h b t Vb Vt; simpl; [done|].
  destruct (append h b [";"%char]) as [h1 b1] eqn:E1.
  destruct (append h1 b1 (bytes (Key tag))) as [h2 b2] eqn:E2.
  destruct (append h2 b2 ["="%char]) as [h3 b3] eqn:E3.
  destruct (append h3 b3 (bytes (Value tag))) as [h4 b4] eqn:E4.
  pose proof (append_keeps_valid h b [";"%char] t Vb Vt) as T1.
  pose proof (append_valid h b [";"%char] Vb) as V1. rewrite E1 in T1, V1.
  pose proof (append_keeps_valid h1 b1 (bytes (Key tag)) t V1 T1) as T2.
  pose proof (append_valid h1 b1 (bytes (Key tag)) V1) as V2. rewrite E2 in T2, V2.
  pose proof (append_keeps_valid h2 b2 ["="%char] t V2 T2) as T3.
  pose proof (append_valid h2 b2 ["="%char] V2) as V3. rewrite E3 in T3, V3.
  pose proof (append_keeps_valid h3 b3 (bytes (Value tag)) t V3 T3) as T4.
  pose proof (append_valid h3 b3 (bytes (Value tag)) V3) as V4. rewrite E4 in T4, V4.
  by apply IH.
Qed.

Lemma careful_append_buffer xs st : wf st → careful st (append_buffer xs st) xs.
Proof.
  intros W. split; [by apply extends_append_buffer|].
  unfold append_buffer. split_and!.
  - intros t Vt.
    pose proof (append_keeps_valid (mem st) (buffer (self st)) xs t (proj1 W) Vt) as V.
    by destruct (append (mem st) (buffer (self st)) xs).
  - pose proof (append_cap (mem st) (buffer (self st)) xs) as V.
    by destruct (append (mem st) (buffer (self st)) xs).
  - intros Hfit.
    pose proof (append_in_place (mem st) (buffer (self st)) xs Hfit) as V.
    by destruct (append (mem st) (buffer (self st)) xs).
Qed.

Lemma careful_append_tags st :
  wf st →
  careful st (append_buffer (data (mem st) (tags (self st))) st) (dtags st).
Proof. apply careful_append_buffer. Qed.

Lemma careful_serializeTagsTo ts st :
  wf st → careful st (serializeTagsTo (buffer (self st)) ts st) [].
Proof.
  intros W. split; [by apply extends_serializeTagsTo|]. split_and!.
  - intros t Vt. unfold serializeTagsTo.
    pose proof (serializeTagsTo_loop_keeps_valid ts (mem st) (buffer (self st)) t
                  (proj1 W) Vt) as V.
    by destruct (serializeTagsTo_loop ts (mem st) (buffer (self st))).
  - by rewrite serializeTagsTo_self.
  - intros _. by rewrite serializeTagsTo_self.
Qed.

Lemma careful_trans a b c xs ys :
  careful a b xs → careful b c ys → careful a c (xs ++ ys).
Proof.
  intros (E1 & V1 & C1 & A1) (E2 & V2 & C2 & A2).
  split; [by eapply extends_trans|]. split; [by auto|]. split; [lia|].
  rewrite length_app. intros Hfit.
  destruct A1 as [Ar1 Ca1]; [lia|].
  destruct E1 as (_ & _ & _ & _ & L1 & _).
  destruct A2 as [Ar2 Ca2]; [lia|]. split; congruence.
Qed.

Lemma careful_eq a b xs ys : careful a b xs → xs = ys → careful a b ys.
Proof. by intros H <-. Qed.

(** The nine writing statements of [send], with what they do to the
    store. *)
Lemma send_body_careful key value mt ts st :
  wf st →
  ∃ st',
    send key value mt ts st
    = (if decide (maxBufferSize (self st') ≤ Z.of_nat (len (buffer (self st'))))%Z
       then requestFlush st' else st')
    ∧ careful st st' (line st key value mt).
Proof.
  intros W0. eexists. split; [unfold send; cbv zeta; reflexivity|].
  pose proof (careful_append_buffer (data (mem st) (prefix (self st))) st W0) as E1.
  pose proof (careful_trans _ _ _ _ _ E1
    (careful_append_buffer (bytes key) _ (extends_wf _ _ _ (proj1 E1)))) as E2.
  pose proof (careful_trans _ _ _ _ _ E2
    (careful_append_buffer [":"%char] _ (extends_wf _ _ _ (proj1 E2)))) as E3.
  pose proof (careful_trans _ _ _ _ _ E3
    (careful_append_buffer (bytes value) _ (extends_wf _ _ _ (proj1 E3)))) as E4.
  pose proof (careful_trans _ _ _ _ _ E4
    (careful_append_tags _ (extends_wf _ _ _ (proj1 E4)))) as E5.
  pose proof (careful_trans _ _ _ _ _ E5
    (careful_serializeTagsTo ts _ (extends_wf _ _ _ (proj1 E5)))) as E6.
  pose proof (careful_trans _ _ _ _ _ E6
    (careful_append_buffer ["|"%char] _ (extends_wf _ _ _ (proj1 E6)))) as E7.
  pose proof (careful_trans _ _ _ _ _ E7
    (careful_append_buffer (bytes mt) _ (extends_wf _ _ _ (proj1 E7)))) as E8.
  pose proof (careful_trans _ _ _ _ _ E8
    (careful_append_buffer [LF] _ (extends_wf _ _ _ (proj1 E8)))) as E9.
  destruct E4 as ((_ & _ & _ & T4 & _) & _).
  eapply careful_eq; [exact E9|].
  rewrite T4. unfold line, pre. rewrite app_nil_r, <- !app_assoc. reflexivity.
Qed.

(** [send] as a whole: the buffer's new bytes, the headers that stay
    valid, and the array the buffer is over. *)
Lemma send_careful key value mt ts st :
  wf st →
  careful st (send key value mt ts st) (line st key value mt)
  ∨ ∃ st', careful st st' (line st key value mt)
           ∧ send key value mt ts st = requestFlush st'.
Proof.
  intros W. destruct (send_body_careful key value mt ts st W) as (st' & -> & C).
  case_decide; [right; by exists st' | by left].
Qed.

(** ** Steps *)

(** From here on [send] is used through the lemmas above only. *)
Opaque send.

Lemma step_send key value mt ts s s' :
  step (LSend key value mt ts) s = Next s' →
  s' = {| st := send key value mt ts (st s); bg := bg s; closer := closer s |}.
Proof. intros [= <-]. reflexivity. Qed.

Lemma send_others key value mt ts st :
  quitChan (self (send key value mt ts st)) = quitChan (self st)
  ∧ wg (self (send key value mt ts st)) = wg (self st)
  ∧ errorHandler (self (send key value mt ts st)) = errorHandler (self st)
  ∧ maxBufferSize (self (send key value mt ts st)) = maxBufferSize (self st)
  ∧ flushInterval (self (send key value mt ts st)) = flushInterval (self st)
  ∧ conn (self (send key value mt ts st)) = conn (self st).
Proof.
  destruct (send_effect key value mt ts st) as (_ & _ & E).
  rewrite E. by split_and!.
Qed.

Lemma step_chan l s s' :
  step l s = Next s' →
  chCap (flushChan (self (st s))) = 1 ∧ chLen (flushChan (self (st s))) ≤ 1 →
  chCap (flushChan (self (st s'))) = 1 ∧ chLen (flushChan (self (st s'))) ≤ 1.
Proof.
  intros H [Hc Hl]. destruct l.
  - apply step_send in H as ->. simpl.
    destruct (send_effect key value mt ts (st s)) as (_ & -> & _).
    repeat case_decide; simpl; lia.
  - destruct s as [[h c lg] b cl]. step_cases H. lia.
  - destruct s as [[h c lg] b cl]. step_cases H.
    rewrite (proj1 (requestFlush_chan _)). simpl.
    case_decide; simpl; lia.
  - destruct s as [[h c lg] b cl]. step_cases H; lia.
  - destruct s as [[h c lg] b cl]. step_cases H; lia.
  - destruct s as [[h c lg] b cl]. step_cases H; lia.
  - destruct s as [[h c lg] b cl]. step_cases H; lia.
  - destruct s as [[h c lg] b cl]. step_cases H; lia.
Qed.

Lemma step_quit l s s' :
  step l s = Next s' →
  chClosed (quitChan (self (st s))) = true →
  chClosed (quitChan (self (st s'))) = true.
Proof.
  intros H Hq. destruct l.
  - apply step_send in H as ->. simpl.
    by rewrite (proj1 (send_others key value mt ts (st s))).
  - destruct s as [[h c lg] b cl]. step_cases H. done.
  - destruct s as [[h c lg] b cl]. step_cases H.
    by rewrite requestFlush_self.
  - destruct s as [[h c lg] b cl]. step_cases H; done.
  - destruct s as [[h c lg] b cl]. step_cases H; done.
  - destruct s as [[h c lg] b cl]. step_cases H; done.
  - destruct s as [[h c lg] b cl]. step_cases H; done.
  - destruct s as [[h c lg] b cl]. step_cases H; done.
Qed.

Lemma requestFlush_fields st :
  buffer (self (requestFlush st)) = buffer (self st)
  ∧ prefix (self (requestFlush st)) = prefix (self st)
  ∧ tags (self (requestFlush st)) = tags (self st)
  ∧ quitChan (self (requestFlush st)) = quitChan (self st)
  ∧ wg (self (requestFlush st)) = wg (self st).
Proof. rewrite requestFlush_self. by split_and!. Qed.

Lemma valid_reslice0 h b : valid h b → valid h (reslice b 0).
Proof. intros (a & Ha & Hl & _). exists a. simpl. split_and!; [done|done|lia]. Qed.

(** A state with the same store, prefix and tags, and with the same
    buffer or the buffer cut to length zero. *)
Lemma wf_views st st' :
  wf st →
  mem st' = mem st →
  prefix (self st') = prefix (self st) →
  tags (self st') = tags (self st) →
  buffer (self st') = buffer (self st)
  ∨ buffer (self st') = reslice (buffer (self st)) 0 →
  wf st'.
Proof.
  intros (Vb & Vp & Vt & Np & Nt) Hm Hp Ht Hb. unfold wf.
  rewrite Hm, Hp, Ht. destruct Hb as [-> | ->]; split_and!; try done.
  by apply valid_reslice0.
Qed.

Lemma structured_views st st' :
  structured st →
  mem st' = mem st →
  prefix (self st') = prefix (self st) →
  tags (self st') = tags (self st) →
  buffer (self st') = buffer (self st)
  ∨ buffer (self st') = reslice (buffer (self st)) 0 →
  structured st'.
Proof.
  intros (ls & Hb & Hls) Hm Hp Ht Hbuf.
  assert (E : ∀ l, encoded st l → encoded st' l).
  { intros l (k & v & m & ->). exists k, v, m.
    unfold line, pre, dtags. by rewrite Hm, Hp, Ht. }
  destruct Hbuf as [Hbuf | Hbuf].
  - exists ls. split.
    + unfold buf. rewrite Hm, Hbuf. exact Hb.
    + eapply Forall_impl; [exact Hls | exact E].
  - exists []. split; [|constructor].
    unfold buf, data. rewrite Hbuf. reflexivity.
Qed.

Lemma step_wf l s s' : step l s = Next s' → wf (st s) → wf (st s').
Proof.
  intros H W. destruct l.
  - apply step_send in H as ->. simpl.
    exact (proj1 (send_spec key value mt ts (st s) W)).
  - destruct s as [[h c lg] b cl]. step_cases H. done.
  - destruct s as [[h c lg] b cl]. step_cases H.
    by apply requestFlush_views.
  - destruct s as [[h c lg] b cl]; step_cases H;
      (eapply wf_views; [exact W|..]; simpl; auto).
  - destruct s as [[h c lg] b cl]; step_cases H;
      (eapply wf_views; [exact W|..]; simpl; auto).
  - destruct s as [[h c lg] b cl]; step_cases H;
      (eapply wf_views; [exact W|..]; simpl; auto).
  - destruct s as [[h c lg] b cl]; step_cases H;
      (eapply wf_views; [exact W|..]; simpl; auto).
  - destruct s as [[h c lg] b cl]; step_cases H;
      (eapply wf_views; [exact W|..]; simpl; auto).
Qed.

Lemma structured_send key value mt ts st :
  wf st → structured st → structured (send key value mt ts st).
Proof.
  intros W (ls & Hb & Hls).
  destruct (send_spec key value mt ts st W) as (_ & B & P & T & _).
  exists (ls ++ [line st key value mt]). split.
  - rewrite B, Hb, concat_app. simpl. by rewrite app_nil_r.
  - assert (E : ∀ l, encoded st l → encoded (send key value mt ts st) l).
    { intros l (k & v & m & ->). exists k, v, m.
      unfold line. by rewrite P, T. }
    apply Forall_app. split.
    + eapply Forall_impl; [exact Hls | exact E].
    + constructor; [|constructor]. apply E. by exists key, value, mt.
Qed.

Lemma step_structured l s s' :
  step l s = Next s' → wf (st s) → structured (st s) → structured (st s').
Proof.
  intros H W Hs. destruct l.
  - apply step_send in H as ->. simpl. by apply structured_send.
  - destruct s as [[h c lg] b cl]. step_cases H. done.
  - destruct s as [[h c lg] b cl]. step_cases H.
    destruct (requestFlush_fields (emit EvTick {| mem := h; self := c; log := lg |}))
      as (Eb & Ep & Et & _).
    eapply structured_views; [exact Hs|..];
      rewrite ?requestFlush_mem, ?Eb, ?Ep, ?Et; simpl; auto.
  - destruct s as [[h c lg] b cl]; step_cases H;
      (eapply structured_views; [exact Hs|..]; simpl; auto).
  - destruct s as [[h c lg] b cl]; step_cases H;
      (eapply structured_views; [exact Hs|..]; simpl; auto).
  - destruct s as [[h c lg] b cl]; step_cases H;
      (eapply structured_views; [exact Hs|..]; simpl; auto).
  - destruct s as [[h c lg] b cl]; step_cases H;
      (eapply structured_views; [exact Hs|..]; simpl; auto).
  - destruct s as [[h c lg] b cl]; step_cases H;
      (eapply structured_views; [exact Hs|..]; simpl; auto).
Qed.

Lemma isnil_data h b :
  valid h b → isnil (data h b) = bool_decide (len b = 0).
Proof.
  intros (a & Ha & Hl & Hle). unfold data. rewrite Ha; simpl.
  destruct (len b) as [|n] eqn:E; [by rewrite take_0|].
  destruct a as [|x a]; simpl in *; [lia|done].
Qed.

Lemma draining_signalled l : draining l = true → signalled l = true.
Proof. stage_induction l. Qed.

Lemma flushed_signalled l : flushed l = true → signalled l = true.
Proof. stage_induction l. by apply draining_signalled. Qed.

Lemma exited_signalled l : exited l = true → signalled l = true.
Proof. stage_induction l. by apply flushed_signalled. Qed.

Lemma returned_signalled l : returned l = true → signalled l = true.
Proof. stage_induction l. by apply exited_signalled. Qed.

Lemma step_shape l s s' :
  step l s = Next s' →
  valid (mem (st s)) (buffer (self (st s))) →
  shape s → shape s'.
Proof.
  intros H V Hs. destruct l.
  - apply step_send in H as ->.
    destruct (send_effect key value mt ts (st s)) as (EL & _ & _).
    destruct (send_others key value mt ts (st s)) as (EQ & EW & _).
    cbv zeta in EL. unfold shape in *. simpl.
    rewrite EL, EQ, EW.
    destruct (decide _); simpl; exact Hs.
  - destruct s as [[h c lg] b cl]. unfold shape in Hs. step_cases H. shape_auto.
  - destruct s as [[h c lg] b cl]. unfold shape in Hs. step_cases H.
    destruct (requestFlush_fields (emit EvTick {| mem := h; self := c; log := lg |}))
      as (_ & _ & _ & Eq & Ew).
    unfold shape. simpl.
    rewrite (proj2 (requestFlush_chan _)), Eq, Ew. simpl. exact Hs.
  - destruct s as [[h c lg] b cl]. unfold shape in Hs. step_cases H; shape_auto.
  - destruct s as [[h c lg] b cl]. unfold shape in Hs.
    pose proof (isnil_data _ _ V) as N. step_cases H; shape_auto.
    + assert (signalled lg = true) as -> by congruence.
      match goal with Hb : before_quit lg = true |- _ => rewrite Hb end.
      rewrite N, bool_decide_eq_false_2 by done. reflexivity.
    + assert (Sg : signalled lg = true) by congruence. rewrite Sg.
      match goal with Hb : before_quit lg = true |- _ => rewrite Hb end.
      rewrite N, bool_decide_eq_true_2 by done.
      destruct cl; [|done|done].
      match goal with
      | Hc : _ ↔ _ |- _ =>
          destruct Hc as [Hc _]; specialize (Hc eq_refl); congruence
      end.
  - destruct s as [[h c lg] b cl]. unfold shape in Hs. step_cases H; shape_auto.
    all: by destruct cl.
  - destruct s as [[h c lg] b cl]. unfold shape in Hs. step_cases H; shape_auto.
    match goal with
    | Hr : returned _ = true |- _ => apply returned_signalled in Hr; congruence
    end.
  - destruct s as [[h c lg] b cl]. unfold shape in Hs. step_cases H; shape_auto.
Qed.

(** ** The invariant *)

Lemma step_inv l s s' : step l s = Next s' → inv s → inv s'.
Proof.
  intros H (W & Hs & Hc & Hl & Hsh).
  destruct (step_chan l s s' H (conj Hc Hl)) as [Hc' Hl'].
  split_and!.
  - by eapply step_wf.
  - by eapply step_structured.
  - exact Hc'.
  - exact Hl'.
  - eapply step_shape; [exact H| apply W | exact Hsh].
Qed.

Lemma run_inv ls : ∀ s s', run ls s = Next s' → inv s → inv s'.
Proof.
  induction ls as [|l ls IH]; intros s s' H I; simpl in H.
  - by simplify_eq.
  - destruct (step l s) as [s1| |] eqn:E; try done.
    eapply IH; [exact H|]. by eapply step_inv.
Qed.

Lemma boot_inv opts st0 : New opts None = Ok st0 → inv (boot st0).
Proof.
  intros HN.
  destruct (New_spec opts st0 HN)
    as (W & B & P & T & L & F & Q & G & _).
  split_and!; simpl.
  - exact W.
  - exists []. by split.
  - by rewrite F.
  - rewrite F. simpl. lia.
  - unfold shape. simpl. rewrite L, Q, G. by split_and!.
Qed.

Lemma reachable_inv s : reachable s → inv s.
Proof.
  intros (opts & st0 & ls & HN & Hr).
  eapply run_inv; [exact Hr|]. by eapply boot_inv.
Qed.


Lemma run_quit ls : ∀ s s',
  run ls s = Next s' →
  chClosed (quitChan (self (st s))) = true →
  chClosed (quitChan (self (st s'))) = true.
Proof.
  induction ls as [|l ls IH]; intros s s' H Q; simpl in H.
  - by simplify_eq.
  - destruct (step l s) as [s1| |] eqn:E; try done.
    eapply IH; [exact H|]. by eapply step_quit.
Qed.

(** ** C1: the encoded line *)

Lemma step_pre_dtags l s s' :
  step l s = Next s' → wf (st s) →
  pre (st s') = pre (st s) ∧ dtags (st s') = dtags (st s).
Proof.
  intros H W. destruct l.
  - apply step_send in H as ->. simpl.
    by destruct (send_spec key value mt ts (st s) W) as (_ & _ & -> & -> & _).
  - destruct s as [[h c lg] b cl]. step_cases H. done.
  - destruct s as [[h c lg] b cl]. step_cases H.
    by destruct (requestFlush_views (emit EvTick {| mem := h; self := c; log := lg |}))
      as (_ & -> & -> & _).
  - destruct s as [[h c lg] b cl]. step_cases H; done.
  - destruct s as [[h c lg] b cl]. step_cases H; done.
  - destruct s as [[h c lg] b cl]. step_cases H; done.
  - destruct s as [[h c lg] b cl]. step_cases H; done.
  - destruct s as [[h c lg] b cl]. step_cases H; done.
Qed.

Lemma run_pre_dtags ls : ∀ s s',
  run ls s = Next s' → wf (st s) →
  wf (st s') ∧ pre (st s') = pre (st s) ∧ dtags (st s') = dtags (st s).
Proof.
  induction ls as [|l ls IH]; intros s s' H W; simpl in H.
  - by simplify_eq.
  - destruct (step l s) as [s1| |] eqn:E; try done.
    destruct (step_pre_dtags l s s1 E W) as [P T].
    destruct (IH s1 s' H (step_wf l s s1 E W)) as (W' & P' & T').
    split; [exact W'|]. split; congruence.
Qed.

(** C1 (the code departs from the claim).  For a client that [New] made
    with prefix ["app."] and the default tag [env=prod], whatever the
    other options, [Increment("signup")] leaves in the empty buffer the
    line [app.signup:1|c] and the line terminator: the default tag is not
    in it.  And in every state the client gets into, what [send] adds to
    the buffer is [<prefix><name>:<value>|<type>] and the terminator,
    with neither the default tags nor the tags of the call:
    [serializeTagsTo] changes its own copy of the slice header, and both
    callers go on with the header they had. *)
Theorem Increment_signup_line opts st0 :
  New opts None = Ok st0 →
  Options.prefix (configure opts) = "app." →
  Options.tags (configure opts) = [env_prod] →
  buf (Increment "signup" [] st0) = bytes "app.signup:1|c" ++ [LF]
  ∧ ∀ ls s key value mt ts,
      run ls (boot st0) = Next s →
      buf (send key value mt ts (st s))
      = buf (st s) ++ bytes "app." ++ bytes key ++ ":"%char :: bytes value
          ++ "|"%char :: bytes mt ++ [LF].
Proof.
  intros HN Hp _.
  destruct (New_spec opts st0 HN) as (W & B & P & T & _).
  assert (Hsend : ∀ ls s key value mt ts,
      run ls (boot st0) = Next s →
      buf (send key value mt ts (st s))
      = buf (st s) ++ bytes "app." ++ bytes key ++ ":"%char :: bytes value
          ++ "|"%char :: bytes mt ++ [LF]).
  { intros ls s key value mt ts Hr.
    destruct (run_pre_dtags ls _ _ Hr W) as (W' & P' & T'). simpl in P', T'.
    destruct (send_spec key value mt ts (st s) W') as (_ & -> & _).
    unfold line. by rewrite P', T', P, T, Hp. }
  split; [|exact Hsend].
  change (buf (send "signup" "1" "c" [] (st (boot st0)))
          = bytes "app.signup:1|c" ++ [LF]).
  rewrite (Hsend [] (boot st0) "signup" "1" "c" [] eq_refl). simpl.
  by rewrite B.
Qed.

Lemma Increment_signup_line_witness :
  New [Prefix "app."; Tags [env_prod]] None = Ok scenario
  ∧ Options.prefix (configure [Prefix "app."; Tags [env_prod]]) = "app."
  ∧ Options.tags (configure [Prefix "app."; Tags [env_prod]]) = [env_prod]
  ∧ buf (Increment "signup" [] scenario) = bytes "app.signup:1|c" ++ [LF].
Proof.
  split_and!; [exact New_scenario | reflexivity | reflexivity |].
  exact (proj1 (Increment_signup_line [Prefix "app."; Tags [env_prod]] scenario
                  New_scenario eq_refl eq_refl)).
Defined.

(** ** The schedules *)

Lemma close_schedule_run : run close_schedule (boot scenario) = Next closed_system.
Proof. vm_compute. reflexivity. Qed.

Lemma ticked_run : run [LStart; LTick; LTick] (boot scenario) = Next ticked_system.
Proof. vm_compute. reflexivity. Qed.

Lemma quiet_schedule_run : run quiet_schedule (boot scenario) = Next quiet_system.
Proof. vm_compute. reflexivity. Qed.

Lemma closing_step : step LClose (boot scenario) = Next closing_system.
Proof. vm_compute. reflexivity. Qed.

Lemma closing_later_run : run [LStart; LTick] closing_system = Next closing_later.
Proof. vm_compute. reflexivity. Qed.

(** The log of the first schedule, newest event first. *)
Example closed_system_log :
  log (st closed_system)
  = [EvCloseReturn; EvConnClose None; EvBgExit;
     EvWrite (bytes "app.signup:1|c") None;
     EvRecvQuit (bytes "app.signup:1|c" ++ [LF]); EvCloseSignal].
Proof. vm_compute. reflexivity. Qed.

(** Between the two parts of [flushMetrics] the slice that was kept and
    the emptied buffer are over one array.  A [send] that runs in between
    writes its line over the bytes that were kept: here the write hands
    over the second metric, and the buffer still holds it for the next
    drain. *)
Example racing_system_log :
  run racing_schedule (boot scenario) = Next racing_system
  ∧ log (st racing_system)
    = [EvWrite (bytes "app.b:2|c") None; EvRecvFlush; EvRequest true; EvTick]
  ∧ buf (st racing_system) = bytes "app.b:2|c" ++ [LF].
Proof. vm_compute. by split_and!. Qed.

Lemma reachable_scenario ls s : run ls (boot scenario) = Next s → reachable s.
Proof.
  intros H. exists [Prefix "app."; Tags [env_prod]], scenario, ls.
  split; [exact New_scenario | exact H].
Qed.

(** ** C7: the single slot of [flushChan] *)

Lemma requestFlush_bound st :
  chCap (flushChan (self st)) = 1 ∧ chLen (flushChan (self st)) ≤ 1 →
  chCap (flushChan (self (requestFlush st))) = 1
  ∧ chLen (flushChan (self (requestFlush st))) ≤ 1.
Proof.
  intros [Hc Hl]. rewrite (proj1 (requestFlush_chan st)).
  case_decide; simpl; lia.
Qed.

(** C7.  In every state a client can be in, [flushChan] has one slot and
    at most one signal queued, and that stays so however many times
    [requestFlush] is called.  [requestFlush] is a function of the state:
    it returns in every state; with the slot taken it changes nothing but
    the log, where it notes the dropped request. *)
Theorem flushChan_single_slot s :
  reachable s →
  chCap (flushChan (self (st s))) = 1
  ∧ chLen (flushChan (self (st s))) ≤ 1
  ∧ (∀ n, chLen (flushChan (self (Nat.iter n requestFlush (st s)))) ≤ 1)
  ∧ (chLen (flushChan (self (st s))) = 1 →
     requestFlush (st s) = emit (EvRequest false) (st s))
  ∧ (chLen (flushChan (self (st s))) = 0 →
     chLen (flushChan (self (requestFlush (st s)))) = 1).
Proof.
  intros R. destruct (reachable_inv s R) as (_ & _ & Hc & Hl & _).
  split_and!; try done.
  - intros n.
    assert (B : chCap (flushChan (self (Nat.iter n requestFlush (st s)))) = 1
                ∧ chLen (flushChan (self (Nat.iter n requestFlush (st s)))) ≤ 1).
    { induction n as [|n IH]; [done|]. simpl. by apply requestFlush_bound. }
    apply B.
  - intros E. unfold requestFlush. rewrite decide_False by lia. reflexivity.
  - intros E. rewrite (proj1 (requestFlush_chan (st s))).
    rewrite decide_True by lia. simpl. by rewrite E.
Qed.

Lemma flushChan_single_slot_witness :
  reachable ticked_system
  ∧ chLen (flushChan (self (st ticked_system))) ≤ 1.
Proof.
  assert (R : reachable ticked_system)
    by exact (reachable_scenario _ _ ticked_run).
  split; [exact R|].
  exact (proj1 (proj2 (flushChan_single_slot ticked_system R))).
Defined.

(** ** C9: the buffer holds whole lines *)

Lemma line_ends st key value mt :
  ∃ body, line st key value mt = body ++ [LF].
Proof.
  unfold line.
  exists (pre st ++ bytes key ++ ":"%char :: bytes value ++ dtags st
            ++ "|"%char :: bytes mt).
  repeat first [rewrite <- app_assoc | rewrite <- app_comm_cons].
  reflexivity.
Qed.

Lemma structured_ends st :
  structured st → buf st ≠ [] → ∃ body, buf st = body ++ [LF].
Proof.
  intros (ls & -> & Hls). induction ls as [|l ls IH] using rev_ind; [done|].
  intros _. apply Forall_app in Hls as [_ Hl].
  apply Forall_singleton in Hl as (k & v & m & ->).
  destruct (line_ends st k v m) as [body ->].
  exists (concat ls ++ body).
  rewrite concat_app. simpl. by rewrite app_nil_r, app_assoc.
Qed.

(** C9.  In every state a client can be in, the buffer is a
    concatenation of lines as [send] encodes them, each ending in the
    line terminator.  So a buffer that is not empty ends in the
    terminator, and the one byte [flushMetrics] leaves out of [data] is
    that terminator: the buffer is [data] followed by it. *)
Theorem buffer_holds_whole_lines s :
  reachable s →
  structured (st s)
  ∧ (buf (st s) ≠ [] → last (buf (st s)) = Some LF)
  ∧ (buf (st s) ≠ [] →
     ∃ st1 d,
       flushMetrics_swap (st s) = (st1, Some d)
       ∧ buf (st s) = data (mem st1) d ++ [LF]).
Proof.
  intros R. destruct (reachable_inv s R) as (W & Hs & _).
  split; [exact Hs|]. split.
  - intros NE. destruct (structured_ends _ Hs NE) as [body ->].
    apply last_snoc.
  - intros NE. destruct (structured_ends _ Hs NE) as [body E].
    destruct (proj2 (flushMetrics_spec None (st s) (proj1 W)) NE)
      as (st1 & d & Hsw & _ & _ & _ & _ & Hd & _).
    exists st1, d. split; [exact Hsw|]. by rewrite (Hd body E).
Qed.

Lemma buffer_holds_whole_lines_witness :
  reachable quiet_system
  ∧ last (buf (st quiet_system)) = Some LF.
Proof.
  assert (R : reachable quiet_system)
    by exact (reachable_scenario _ _ quiet_schedule_run).
  split; [exact R|].
  apply (proj1 (proj2 (buffer_holds_whole_lines quiet_system R))).
  vm_compute. discriminate.
Defined.

(** ** C8: a second [Close] *)

(** C8.  Once a call of [Close] has closed [quitChan], whatever happens
    afterwards, the first statement of another call of [Close] panics
    ([close] of a closed channel): that call neither goes on as if
    nothing were wrong nor waits. *)
Theorem second_Close_panics s1 s2 ls s3 :
  step LClose s1 = Next s2 →
  run ls s2 = Next s3 →
  Close_signal (st s3) = Panic "close of closed channel"
  ∧ step LClose s3 = Crash "close of closed channel"
  ∧ (∀ s4, step LClose s3 ≠ Next s4)
  ∧ step LClose s3 ≠ Blocked.
Proof.
  intros H1 H2.
  assert (Q2 : chClosed (quitChan (self (st s2))) = true).
  { destruct s1 as [[h c lg] b cl]. step_cases H1. done. }
  pose proof (run_quit ls s2 s3 H2 Q2) as Q3.
  assert (E : Close_signal (st s3) = Panic "close of closed channel").
  { unfold Close_signal. by rewrite Q3. }
  assert (E' : step LClose s3 = Crash "close of closed channel").
  { simpl. by rewrite E. }
  rewrite E'. by split_and!.
Qed.

Lemma second_Close_panics_witness :
  step LClose (boot scenario) = Next closing_system
  ∧ run [LStart; LTick] closing_system = Next closing_later
  ∧ step LClose closing_later = Crash "close of closed channel".
Proof.
  split; [exact closing_step|]. split; [exact closing_later_run|].
  exact (proj1 (proj2 (second_Close_panics (boot scenario) closing_system
                         [LStart; LTick] closing_later
                         closing_step closing_later_run))).
Defined.

(** ** C4: when a flush is requested *)





(** ** C6: [Close] and the final drain *)














(** * Further properties of the code *)

(** ** [Count], [Increment], [Timing], [Timer] *)

Lemma line_length st key value mt : 3 ≤ length (line st key value mt).
Proof.
  unfold line. rewrite !length_app. simpl. rewrite !length_app. simpl.
  rewrite !length_app. simpl. lia.
Qed.

(** X1.  [Count] changes the buffer exactly when the value is not zero:
    then it adds one line, of type [c], with the value in decimal;
    [Increment] adds the line with the value [1]. *)
Theorem Count_adds_line_iff key value ts st :
  wf st →
  (value ≠ 0%Z →
   buf (Count key value ts st) = buf st ++ line st key (FormatInt value) "c")
  ∧ (buf (Count key value ts st) = buf st ↔ value = 0%Z)
  ∧ buf (Increment key ts st) = buf st ++ line st key "1" "c".
Proof.
  intros W.
  assert (N : ∀ v, v ≠ 0%Z →
    buf (Count key v ts st) = buf st ++ line st key (FormatInt v) "c").
  { intros v Hv. unfold Count. rewrite decide_False by done.
    exact (proj1 (proj2 (send_spec key (FormatInt v) "c" ts st W))). }
  split; [exact (N value)|]. split.
  - split.
    + intros E. destruct (decide (value = 0%Z)) as [|Hv]; [done|].
      rewrite (N value Hv) in E.
      apply (f_equal length) in E. rewrite length_app in E.
      pose proof (line_length st key (FormatInt value) "c"). lia.
    + intros ->. reflexivity.
  - exact (N 1%Z ltac:(done)).
Qed.

Lemma Count_adds_line_iff_witness :
  wf demo
  ∧ buf (Count "errors" (-3) [] demo) = bytes "app.errors:-3|c" ++ [LF].
Proof.
  split; [exact wf_demo|].
  rewrite (proj1 (Count_adds_line_iff "errors" (-3) [] demo wf_demo)) by done.
  vm_compute. reflexivity.
Defined.

(** X2.  A timer sends the whole milliseconds between its start and its
    stop: a rest below one millisecond is cut off; and [Timing] cuts
    toward zero for a negative duration too. *)
Theorem Timer_sends_whole_milliseconds key ts start ms r st :
  (0 ≤ ms)%Z → (0 ≤ r < 1000000)%Z →
  Timer key ts start (start + (ms * 1000000 + r))%Z st
  = send key (FormatInt ms) "ms" ts st
  ∧ Timing key (- (ms * 1000000 + r))%Z ts st
    = send key (FormatInt (- ms)) "ms" ts st.
Proof.
  intros Hms Hr.
  assert (Q : ((ms * 1000000 + r) ÷ 1000000 = ms)%Z).
  { rewrite Z.quot_div_nonneg by lia.
    symmetry. apply (Z.div_unique _ _ ms r); lia. }
  split.
  - unfold Timer, Timing, Milliseconds.
    replace (start + (ms * 1000000 + r) - start)%Z with (ms * 1000000 + r)%Z by lia.
    by rewrite Q.
  - unfold Timing, Milliseconds. rewrite Z.quot_opp_l by lia. by rewrite Q.
Qed.

Lemma Timer_sends_whole_milliseconds_witness :
  (0 ≤ 250)%Z ∧ (0 ≤ 999999 < 1000000)%Z
  ∧ Timer "query" [] 17 (17 + (250 * 1000000 + 999999))%Z demo
    = send "query" "250" "ms" [] demo.
Proof.
  split; [lia|]. split; [lia|].
  exact (proj1 (Timer_sends_whole_milliseconds "query" [] 17 250 999999 demo
                  ltac:(lia) ltac:(lia))).
Defined.

(** ** [New]: what it answers *)



(** ** [Prefix] *)

Lemma HasSuffix_dot_cons a s :
  s ≠ ""%string → HasSuffix (String a s) "." = HasSuffix s ".".
Proof.
  intros Hs. destruct s as [|b s]; [done|]. unfold HasSuffix. simpl.
  rewrite !Nat.sub_0_r. reflexivity.
Qed.

Lemma TrimSuffix_dot s :
  HasSuffix s "." = true → (TrimSuffix s "." ++ ".")%string = s.
Proof.
  unfold TrimSuffix. intros H. rewrite H. revert H.
  induction s as [|a s IH]; [done|].
  destruct s as [|b s].
  - unfold HasSuffix. simpl. destruct (Ascii.eqb_spec a "."%char); [|done].
    by subst.
  - rewrite HasSuffix_dot_cons by done. intros H. specialize (IH H).
    simpl in *. rewrite Nat.sub_0_r in IH. by rewrite <- IH at 1.
Qed.

Lemma HasSuffix_app_dot s : HasSuffix (s ++ ".") "." = true.
Proof.
  induction s as [|a s IH]; [done|].
  change (String a s ++ ".")%string with (String a (s ++ ".")).
  rewrite HasSuffix_dot_cons; [done|]. by destruct s.
Qed.

(** X4.  [Prefix] leaves a prefix that ends in a dot as it is and adds a
    dot to any other, the empty one included; so the configured prefix
    always ends in a dot, applying [Prefix] to it again changes nothing,
    and a new client's [prefix] slice shows it. *)
Theorem Prefix_normalises p o :
  Options.prefix (Prefix p o)
  = (if HasSuffix p "." then p else (p ++ ".")%string)
  ∧ HasSuffix (Options.prefix (Prefix p o)) "." = true
  ∧ Prefix (Options.prefix (Prefix p o)) o = Prefix p o
  ∧ ∀ opts st0,
      New (opts ++ [Prefix p]) None = Ok st0 →
      pre st0 = bytes (if HasSuffix p "." then p else (p ++ ".")%string).
Proof.
  assert (E : ∀ q o', Options.prefix (Prefix q o')
                      = (if HasSuffix q "." then q else (q ++ ".")%string)).
  { intros q o'. simpl. destruct (HasSuffix q ".") eqn:H.
    - by apply TrimSuffix_dot.
    - unfold TrimSuffix. by rewrite H. }
  assert (S : ∀ q o', HasSuffix (Options.prefix (Prefix q o')) "." = true).
  { intros q o'. rewrite E. destruct (HasSuffix q ".") eqn:H; [done|].
    apply HasSuffix_app_dot. }
  split; [apply E|]. split; [apply S|]. split.
  - unfold Prefix at 1 3. f_equal.
    change (TrimSuffix (Options.prefix (Prefix p o)) "." ++ ".")%string
      with (Options.prefix (Prefix (Options.prefix (Prefix p o)) o)).
    rewrite (E (Options.prefix (Prefix p o))), S. reflexivity.
  - intros opts st0 HN.
    destruct (New_spec _ _ HN) as (_ & _ & -> & _).
    unfold configure. rewrite fold_left_app. simpl fold_left.
    f_equal. apply E.
Qed.

Lemma Prefix_normalises_witness :
  New ([Host "localhost"; MaxBufferSize 32] ++ [Prefix "app"]) None = Ok demo
  ∧ pre demo = bytes "app.".
Proof.
  assert (H : New ([Host "localhost"; MaxBufferSize 32] ++ [Prefix "app"]) None
              = Ok demo) by (vm_compute; reflexivity).
  split; [exact H|].
  exact (proj2 (proj2 (proj2 (Prefix_normalises "app" (configure []))))
           [Host "localhost"; MaxBufferSize 32] demo H).
Defined.

(** ** After the background task has returned *)

Lemma bgEvents_send key value mt ts st :
  bgEvents (log (send key value mt ts st)) = bgEvents (log st).
Proof.
  destruct (send_effect key value mt ts st) as (EL & _).
  cbv zeta in EL. rewrite EL. by destruct (decide _).
Qed.

Lemma step_after_exit l s s' :
  wf (st s) → bg s = BgExited → step l s = Next s' →
  bg s' = BgExited
  ∧ bgEvents (log (st s')) = bgEvents (log (st s))
  ∧ ∃ xs, buf (st s') = buf (st s) ++ xs.
Proof.
  intros W B H. destruct l.
  - apply step_send in H as ->. simpl. split; [done|].
    split; [apply bgEvents_send|].
    destruct (send_spec key value mt ts (st s) W) as (_ & -> & _). by eexists.
  - destruct s as [[h c lg] b cl]. simpl in B. subst b. step_cases H.
  - destruct s as [[h c lg] b cl]. simpl in B. subst b. step_cases H.
  - destruct s as [[h c lg] b cl]. simpl in B. subst b. step_cases H.
  - destruct s as [[h c lg] b cl]. simpl in B. subst b. step_cases H.
  - destruct s as [[h c lg] b cl]. simpl in B. subst b. step_cases H.
  - destruct s as [[h c lg] b cl]. simpl in B. subst b. step_cases H.
    split_and!; try done. exists []. by rewrite app_nil_r.
  - destruct s as [[h c lg] b cl]. simpl in B. subst b. step_cases H;
      (split_and!; try done; exists []; by rewrite app_nil_r).
Qed.

(** X5.  Once the background task has returned (as it has when [Close]
    returns) nothing is written any more: along every schedule from such
    a state the task stays returned, the log gets no event of it (so no
    write), and the buffer only grows.  Metrics sent after [Close] stay
    in the buffer. *)
Theorem nothing_written_after_exit ls : ∀ s s',
  reachable s → bg s = BgExited → run ls s = Next s' →
  bg s' = BgExited
  ∧ bgEvents (log (st s')) = bgEvents (log (st s))
  ∧ ∃ xs, buf (st s') = buf (st s) ++ xs.
Proof.
  assert (G : ∀ s s', wf (st s) → bg s = BgExited → run ls s = Next s' →
    bg s' = BgExited
    ∧ bgEvents (log (st s')) = bgEvents (log (st s))
    ∧ ∃ xs, buf (st s') = buf (st s) ++ xs).
  { induction ls as [|l ls IH]; intros s s' W B H; simpl in H.
    - simplify_eq. split_and!; try done. exists []. by rewrite app_nil_r.
    - destruct (step l s) as [s1| |] eqn:E; try done.
      destruct (step_after_exit l s s1 W B E) as (B1 & L1 & xs & X1).
      destruct (IH s1 s' (step_wf l s s1 E W) B1 H) as (B2 & L2 & ys & X2).
      split; [done|]. split; [congruence|].
      exists (xs ++ ys). by rewrite X2, X1, app_assoc. }
  intros s s' R. apply G. by destruct (reachable_inv s R).
Qed.

Lemma late_run : run [LSend "late" "1" "c" []] closed_system = Next late_system.
Proof. vm_compute. reflexivity. Qed.

Lemma nothing_written_after_exit_witness :
  reachable closed_system ∧ bg closed_system = BgExited
  ∧ run [LSend "late" "1" "c" []] closed_system = Next late_system
  ∧ bgEvents (log (st late_system)) = bgEvents (log (st closed_system)).
Proof.
  assert (R : reachable closed_system)
    by exact (reachable_scenario _ _ close_schedule_run).
  assert (B : bg closed_system = BgExited) by (vm_compute; reflexivity).
  split; [exact R|]. split; [exact B|]. split; [exact late_run|].
  exact (proj1 (proj2 (nothing_written_after_exit _ _ _ R B late_run))).
Defined.

(** ** A flush interval that is not positive *)

Lemma step_before_start l s s' :
  bg s = BgStart → wg (self (st s)) = 1 →
  (flushInterval (self (st s)) ≤ 0)%Z →
  closer s ≠ CloseReturned →
  step l s = Next s' →
  bg s' = BgStart ∧ wg (self (st s')) = 1
  ∧ (flushInterval (self (st s')) ≤ 0)%Z
  ∧ closer s' ≠ CloseReturned
  ∧ bgEvents (log (st s')) = bgEvents (log (st s)).
Proof.
  intros B Hw Hi Hc H. destruct l.
  - apply step_send in H as ->. simpl.
    destruct (send_others key value mt ts (st s)) as (_ & -> & _ & _ & -> & _).
    split_and!; try done. apply bgEvents_send.
  - destruct s as [[h c lg] b cl]. simpl in *. subst b. step_cases H.
  - destruct s as [[h c lg] b cl]. simpl in *. subst b. step_cases H.
  - destruct s as [[h c lg] b cl]. simpl in *. subst b. step_cases H.
  - destruct s as [[h c lg] b cl]. simpl in *. subst b. step_cases H.
  - destruct s as [[h c lg] b cl]. simpl in *. subst b. step_cases H.
  - destruct s as [[h c lg] b cl]. simpl in *. subst b. step_cases H. done.
  - destruct s as [[h c lg] b cl]. simpl in *. subst b. step_cases H.
Qed.

(** X6.  [New] takes a flush interval that is zero or negative as it
    takes any other; the background task then panics when it makes its
    ticker.  Until it does, it takes no other step: along every schedule
    nothing is received and nothing written, and [Close], if called, does
    not return. *)
Theorem nonpositive_interval opts st0 :
  New opts None = Ok st0 →
  (Options.flushInterval (configure opts) ≤ 0)%Z →
  step LStart (boot st0) = Crash "non-positive interval for NewTicker"
  ∧ ∀ ls s,
      run ls (boot st0) = Next s →
      bg s = BgStart
      ∧ bgEvents (log (st s)) = []
      ∧ closer s ≠ CloseReturned
      ∧ step LStart s = Crash "non-positive interval for NewTicker".
Proof.
  intros HN Hi.
  destruct (New_spec opts st0 HN) 
    as (_ & _ & _ & _ & L & _ & _ & G & _ & I & _).
  assert (A : ∀ ls s s',
    bg s = BgStart → wg (self (st s)) = 1 →
    (flushInterval (self (st s)) ≤ 0)%Z → closer s ≠ CloseReturned →
    run ls s = Next s' →
    bg s' = BgStart ∧ (flushInterval (self (st s')) ≤ 0)%Z
    ∧ closer s' ≠ CloseReturned
    ∧ bgEvents (log (st s')) = bgEvents (log (st s))).
  { induction ls as [|l ls IH]; intros s s' B Hw Hf Hc H; simpl in H.
    - by simplify_eq.
    - destruct (step l s) as [s1| |] eqn:E; try done.
      destruct (step_before_start l s s1 B Hw Hf Hc E) as (B1 & W1 & F1 & C1 & L1).
      destruct (IH s1 s' B1 W1 F1 C1 H) as (B2 & F2 & C2 & L2).
      split_and!; try done. congruence. }
  assert (S : ∀ s, bg s = BgStart → (flushInterval (self (st s)) ≤ 0)%Z →
                   step LStart s = Crash "non-positive interval for NewTicker").
  { intros s B F. simpl. rewrite B. by rewrite decide_True. }
  split.
  - apply S; [done|]. simpl. by rewrite I.
  - intros ls s Hr.
    destruct (A ls (boot st0) s) as (B & F & C & E); try done.
    { simpl. by rewrite I. }
    split_and!; try done.
    + rewrite E. simpl. by rewrite L.
    + by apply S.
Qed.

Lemma nonpositive_interval_witness :
  New [FlushInterval 0; MaxBufferSize 32] None = Ok stalled
  ∧ (Options.flushInterval (configure [FlushInterval 0; MaxBufferSize 32]) ≤ 0)%Z
  ∧ run [LSend "signup" "1" "c" []; LClose] (boot stalled) = Next stalled_system
  ∧ bg stalled_system = BgStart.
Proof.
  assert (HN : New [FlushInterval 0; MaxBufferSize 32] None = Ok stalled)
    by (vm_compute; reflexivity).
  assert (Hi : (Options.flushInterval
                  (configure [FlushInterval 0; MaxBufferSize 32]) ≤ 0)%Z)
    by (vm_compute; discriminate).
  assert (Hr : run [LSend "signup" "1" "c" []; LClose] (boot stalled)
               = Next stalled_system) by (vm_compute; reflexivity).
  split; [exact HN|]. split; [exact Hi|]. split; [exact Hr|].
  exact (proj1 (proj2 (nonpositive_interval _ _ HN Hi) _ _ Hr)).
Defined.

(** ** No empty packet *)

Lemma structured_length st : structured st → buf st ≠ [] → 3 ≤ length (buf st).
Proof.
  intros (ls & -> & Hls) NE. destruct Hls as [|l ls (k & v & m & ->) _]; [done|].
  simpl. rewrite length_app. pose proof (line_length st k v m). lia.
Qed.

Lemma length_data h d : valid h d → length (data h d) = len d.
Proof.
  intros (a & Ha & Hl & Hle). unfold data. rewrite Ha; simpl.
  rewrite length_take. lia.
Qed.

Lemma send_keeps_valid key value mt ts st t :
  wf st → valid (mem st) t → valid (mem (send key value mt ts st)) t.
Proof.
  intros W V.
  destruct (send_careful key value mt ts st W) as [(_ & K & _)|(st' & (_ & K & _) & ->)].
  - by apply K.
  - rewrite requestFlush_mem. by apply K.
Qed.

Lemma writes_ok_send key value mt ts st :
  writes_ok (log st) → writes_ok (log (send key value mt ts st)).
Proof.
  intros H. destruct (send_effect key value mt ts st) as (EL & _).
  cbv zeta in EL. rewrite EL. destruct (decide _); [|done].
  by constructor.
Qed.

Lemma step_writes_ok l s s' :
  inv s → writes_ok (log (st s)) → writing_ok s → step l s = Next s' →
  writes_ok (log (st s')) ∧ writing_ok s'.
Proof.
  intros (W & Hst & _) Hl Hw H.
  pose proof (structured_length _ Hst) as H3.
  destruct (valid_buf_nil _ (proj1 W)) as [Hnil Hlen].
  assert (Cap : ∀ n, len (buffer (self (st s))) = n → n ≠ 0 →
    valid (mem (st s)) (reslice (buffer (self (st s))) (n - 1)) ∧ 2 ≤ n - 1).
  { intros n <- Hn. split.
    - destruct (proj1 W) as (a & Ha & Hla & Hle). exists a. simpl.
      split_and!; [done|done|lia].
    - assert (buf (st s) ≠ []) by (by rewrite Hnil). specialize (H3 ltac:(done)). lia. }
  destruct l.
  - apply step_send in H as ->. split; [by apply writes_ok_send|].
    unfold writing_ok in *. simpl. destruct (bg s); try done.
    destruct Hw as [V L]. split; [by apply send_keeps_valid|done].
  - destruct s as [[h c lg] b cl]. unfold writing_ok, writes_ok in Hw, Hl.
    step_cases H. done.
  - destruct s as [[h c lg] b cl]. unfold writing_ok, writes_ok in Hw, Hl.
    step_cases H. unfold writes_ok. rewrite (proj2 (requestFlush_chan _)).
    simpl. split; [|done]. by repeat constructor.
  - destruct s as [[h c lg] b cl]. unfold writing_ok, writes_ok in Hw, Hl.
    step_cases H; unfold writing_ok, writes_ok; simpl.
    + split; [by constructor|]. by apply Cap.
    + split; [by constructor|done].
  - destruct s as [[h c lg] b cl]. unfold writing_ok, writes_ok in Hw, Hl.
    step_cases H; unfold writing_ok, writes_ok; simpl.
    + split; [by constructor|]. by apply Cap.
    + split; [by repeat constructor|done].
  - destruct s as [[h c lg] b cl]. unfold writing_ok, writes_ok in Hw, Hl.
    destruct b as [| |d f|]; try (by step_cases H).
    destruct Hw as [V L2]. pose proof (length_data _ _ V) as LD. simpl in LD.
    step_cases H; unfold writing_ok, writes_ok; simpl;
      (split; [|done]); repeat constructor; try done; lia.
  - destruct s as [[h c lg] b cl]. unfold writing_ok, writes_ok in Hw, Hl.
    step_cases H; subst; unfold writing_ok, writes_ok; simpl;
      (split; [by constructor|done]).
  - destruct s as [[h c lg] b cl]. unfold writing_ok, writes_ok in Hw, Hl.
    step_cases H; subst; unfold writing_ok, writes_ok; simpl;
      (split; [by repeat constructor|done]).
Qed.

(** X7.  No packet is empty: in every state a client can be in, every
    write there has been handed over at least two bytes, and so will the
    write that is pending, if one is.  (The background task does not
    write for an empty buffer, and a buffer that is not empty holds a
    line of three bytes or more, of which one is left out.) *)
Theorem no_empty_packet s :
  reachable s →
  (∀ bs r, In (EvWrite bs r) (log (st s)) → 2 ≤ length bs)
  ∧ (∀ d final, bg s = BgWrite d final →
       2 ≤ length (data (mem (st s)) d)).
Proof.
  intros (opts & st0 & ls & HN & Hr).
  assert (G : ∀ ls s s', inv s → writes_ok (log (st s)) → writing_ok s →
    run ls s = Next s' → writes_ok (log (st s')) ∧ writing_ok s').
  { clear. induction ls as [|l ls IH]; intros s s' I Hl Hw H; simpl in H.
    - by simplify_eq.
    - destruct (step l s) as [s1| |] eqn:E; try done.
      destruct (step_writes_ok l s s1 I Hl Hw E) as [Hl1 Hw1].
      eapply IH; [|exact Hl1|exact Hw1|exact H]. by eapply step_inv. }
  destruct (G ls (boot st0) s) as [Hl Hw]; try done.
  - by eapply boot_inv.
  - destruct (New_spec opts st0 HN) as (_ & _ & _ & _ & L0 & _).
    unfold writes_ok. simpl. rewrite L0. constructor.
  - split.
    + intros bs r Hin. unfold writes_ok in Hl.
      rewrite Forall_forall in Hl. apply list_elem_of_In in Hin.
      exact (Hl _ Hin).
    + intros d final B. unfold writing_ok in Hw. rewrite B in Hw.
      destruct Hw as [V L]. by rewrite length_data.
Qed.

Lemma no_empty_packet_witness :
  reachable closed_system
  ∧ In (EvWrite (bytes "app.signup:1|c") None) (log (st closed_system))
  ∧ 2 ≤ length (bytes "app.signup:1|c").
Proof.
  assert (R : reachable closed_system)
    by exact (reachable_scenario _ _ close_schedule_run).
  assert (I : In (EvWrite (bytes "app.signup:1|c") None) (log (st closed_system))).
  { rewrite closed_system_log. simpl. tauto. }
  split; [exact R|]. split; [exact I|].
  exact (proj1 (no_empty_packet closed_system R) _ _ I).
Defined.

(** ** A [send] between the two parts of [flushMetrics] *)

(** X8.  The slice [flushMetrics] keeps for its write and the buffer it
    has emptied are over the same array.  A [send] that runs after the
    [Unlock] and before the write, with a line that fits in the buffer's
    capacity, puts its line at the start of that array: the kept slice,
    which showed the old buffer without its last byte, then shows the new
    line as far as the shorter of the two goes, and the new line is in
    the buffer as well. *)
Theorem send_overwrites_kept_bytes key value mt ts st st1 d :
  wf st →
  flushMetrics_swap st = (st1, Some d) →
  length (line st key value mt) ≤ cap (buffer (self st)) →
  data (mem st1) d = removelast (buf st)
  ∧ buf (send key value mt ts st1) = line st key value mt
  ∧ take (len d `min` length (line st key value mt))
      (data (mem (send key value mt ts st1)) d)
    = take (len d `min` length (line st key value mt))
        (line st key value mt).
Proof.
  intros W Hsw Hfit.
  assert (NE : buf st ≠ []).
  { intros E. destruct (proj1 (flushMetrics_spec None st (proj1 W)) E) as [E' _].
    rewrite E' in Hsw. discriminate. }
  destruct (proj2 (flushMetrics_spec None st (proj1 W)) NE)
    as (st1' & d' & Hsw' & L0 & B0 & _ & D0 & _).
  rewrite Hsw in Hsw'. injection Hsw' as <- <-.
  split; [exact D0|].
  revert Hsw. unfold flushMetrics_swap. case_decide as Hn; [done|].
  intros [= <- <-].
  set (st1 := with_self (set_buffer (reslice (buffer (self st)) 0)) st) in *.
  assert (W1 : wf st1) by (eapply wf_views; [exact W|..]; simpl; auto).
  assert (EL : line st1 key value mt = line st key value mt) by reflexivity.
  assert (G : ∀ st', careful st1 st' (line st key value mt) →
    buf st' = line st key value mt
    ∧ take (len (reslice (buffer (self st)) (len (buffer (self st)) - 1))
            `min` length (line st key value mt))
        (data (mem st') (reslice (buffer (self st)) (len (buffer (self st)) - 1)))
      = take (len (reslice (buffer (self st)) (len (buffer (self st)) - 1))
              `min` length (line st key value mt))
          (line st key value mt)).
  { intros st' ((_ & B & _ & _ & L & _) & _ & _ & A).
    destruct A as [Ar Ca]; [simpl; lia|]. simpl in Ar, L.
    rewrite B0 in B. simpl in B. split; [exact B|].
    assert (B' : take (length (line st key value mt))
                   (default [] (mem st' !! arr (buffer (self st))))
                 = line st key value mt).
    { rewrite <- B at 2. unfold buf, data. by rewrite Ar, L. }
    unfold data. simpl.
    transitivity
      (take ((len (buffer (self st)) - 1) `min` length (line st key value mt))
         (take (length (line st key value mt))
            (default [] (mem st' !! arr (buffer (self st)))))).
    - rewrite !take_take. f_equal. lia.
    - by rewrite B'. }
  destruct (send_careful key value mt ts st1 W1) as [C|(st' & C & ->)];
    rewrite EL in C.
  - exact (G _ C).
  - destruct (G _ C) as [G1 G2].
    rewrite (proj1 (requestFlush_views st')), requestFlush_mem. by split.
Qed.

Lemma wf_sent_once : wf sent_once.
Proof. exact (proj1 (send_spec "a" "1" "c" [] demo wf_demo)). Qed.

Lemma kept_swap : flushMetrics_swap sent_once = (kept_state, Some kept_slice).
Proof. vm_compute. reflexivity. Qed.

Lemma send_overwrites_kept_bytes_witness :
  wf sent_once
  ∧ flushMetrics_swap sent_once = (kept_state, Some kept_slice)
  ∧ length (line sent_once "b" "2" "c") ≤ cap (buffer (self sent_once))
  ∧ data (mem kept_state) kept_slice = bytes "app.a:1|c"
  ∧ take (len kept_slice `min` length (line sent_once "b" "2" "c"))
      (data (mem (send "b" "2" "c" [] kept_state)) kept_slice)
    = bytes "app.b:2|c".
Proof.
  assert (F : length (line sent_once "b" "2" "c") ≤ cap (buffer (self sent_once)))
    by (vm_compute; lia).
  split; [exact wf_sent_once|]. split; [exact kept_swap|]. split; [exact F|].
  destruct (send_overwrites_kept_bytes "b" "2" "c" [] sent_once kept_state
              kept_slice wf_sent_once kept_swap F) as (D & _ & T).
  split.
  - rewrite D. vm_compute. reflexivity.
  - rewrite T. vm_compute. reflexivity.
Defined.

(** ** Every byte once, in order *)

Lemma capture_eq st :
  wf st → structured st → len (buffer (self st)) ≠ 0 →
  data (mem st) (reslice (buffer (self st)) (len (buffer (self st)) - 1)) ++ [LF]
  = buf st.
Proof.
  intros W Hs Hn.
  assert (NE : buf st ≠ []).
  { intros E. by apply (valid_buf_nil st (proj1 W)) in E. }
  destruct (structured_ends st Hs NE) as [body E].
  destruct (proj2 (flushMetrics_spec None st (proj1 W)) NE)
    as (st1 & d & Hsw & _ & _ & _ & _ & Hd & _).
  revert Hsw. unfold flushMetrics_swap. rewrite decide_False by done.
  intros [= <- <-]. simpl in Hd. by rewrite (Hd body E), E.
Qed.

Lemma written_send key value mt ts st :
  written (log (send key value mt ts st)) = written (log st).
Proof.
  destruct (send_effect key value mt ts st) as (EL & _).
  cbv zeta in EL. rewrite EL. destruct (decide _); [|done].
  simpl. by rewrite app_nil_r.
Qed.

Lemma step_conserves p l s s' :
  wf (st s) → structured (st s) → dtags (st s) = [] → pre (st s) = p →
  race_free [l] s → step l s = Next s' →
  written (log (st s')) ++ pending s'
  = written (log (st s)) ++ pending s ++ sent p [l].
Proof.
  intros W Hs T P [Hrf _] H. destruct l.
  - apply step_send in H as ->. unfold pending. simpl.
    rewrite written_send.
    destruct (send_spec key value mt ts (st s) W) as (_ & -> & _).
    unfold line. rewrite T, P. simpl. rewrite app_nil_r.
    destruct (bg s); try done; by rewrite ?app_nil_l.
  - destruct s as [[h c lg] b cl]. step_cases H. unfold pending. simpl.
    by rewrite !app_nil_r.
  - destruct s as [[h c lg] b cl]. step_cases H. unfold pending. simpl.
    rewrite (proj2 (requestFlush_chan _)), (proj1 (requestFlush_views _)).
    simpl. by rewrite !app_nil_r.
  - destruct s as [[h c lg] b cl].
    pose proof (capture_eq _ W Hs) as Cq. simpl in Cq.
    step_cases H; unfold pending; simpl; rewrite !app_nil_r.
    + rewrite Cq by done. reflexivity.
    + done.
  - destruct s as [[h c lg] b cl].
    pose proof (capture_eq _ W Hs) as Cq. simpl in Cq.
    step_cases H; unfold pending; simpl; rewrite !app_nil_r.
    + rewrite Cq by done. reflexivity.
    + done.
  - destruct s as [[h c lg] b cl].
    step_cases H; unfold pending; simpl; rewrite ?app_nil_r;
      by rewrite <- ?app_assoc.
  - destruct s as [[h c lg] b cl]. step_cases H. unfold pending. simpl.
    by rewrite !app_nil_r.
  - destruct s as [[h c lg] b cl].
    step_cases H; unfold pending; simpl; by rewrite !app_nil_r.
Qed.

Lemma sent_cons p l ls : sent p (l :: ls) = sent p [l] ++ sent p ls.
Proof. unfold sent. simpl. by rewrite app_nil_r. Qed.

Lemma run_conserves p ls : ∀ s s',
  wf (st s) → structured (st s) → dtags (st s) = [] → pre (st s) = p →
  race_free ls s → run ls s = Next s' →
  written (log (st s')) ++ pending s'
  = written (log (st s)) ++ pending s ++ sent p ls.
Proof.
  induction ls as [|l ls IH]; intros s s' W Hs T P Hrf H; simpl in H.
  - simplify_eq. simpl. by rewrite app_nil_r.
  - destruct Hrf as [Hl Hrf].
    destruct (step l s) as [s1| |] eqn:E; try done.
    destruct (step_pre_dtags l s s1 E W) as [P1 T1].
    rewrite (IH s1 s' (step_wf l s s1 E W) (step_structured l s s1 E W Hs)
               ltac:(congruence) ltac:(congruence) Hrf H).
    assert (E2 : written (log (st s1)) ++ pending s1
                 = written (log (st s)) ++ pending s ++ sent p [l]).
    { apply step_conserves; try done. simpl. by rewrite E. }
    rewrite app_assoc, E2.
    rewrite (sent_cons p l ls). by rewrite <- !app_assoc.
Qed.

(** X9.  Along every schedule in which no [send] runs between the two
    parts of a [flushMetrics], no byte is lost, doubled or moved: what
    the writes so far have handed over (each followed by the terminator
    it left out), then what a pending write will hand over, then the
    buffer, is the lines of the [send]s so far, in their order.  So once
    the buffer is empty and no write is pending, the writes are exactly
    what was sent. *)
Theorem every_byte_once opts st0 ls s :
  New opts None = Ok st0 →
  race_free ls (boot st0) →
  run ls (boot st0) = Next s →
  written (log (st s)) ++ pending s
  = sent (bytes (Options.prefix (configure opts))) ls
  ∧ (pending s = [] →
     written (log (st s)) = sent (bytes (Options.prefix (configure opts))) ls).
Proof.
  intros HN Hrf Hr.
  destruct (New_spec opts st0 HN) as (W & B & P & T & L & _).
  destruct (boot_inv opts st0 HN) as (_ & Hs & _).
  pose proof (run_conserves _ ls (boot st0) s W Hs T P Hrf Hr) as E.
  unfold pending at 2 in E. simpl in E. rewrite L, B in E. simpl in E.
  split; [exact E|]. intros Hp. rewrite Hp, app_nil_r in E. exact E.
Qed.

Lemma orderly_run : run orderly_schedule (boot scenario) = Next orderly_system.
Proof. vm_compute. reflexivity. Qed.

Lemma every_byte_once_witness :
  New [Prefix "app."; Tags [env_prod]] None = Ok scenario
  ∧ race_free orderly_schedule (boot scenario)
  ∧ run orderly_schedule (boot scenario) = Next orderly_system
  ∧ pending orderly_system = []
  ∧ written (log (st orderly_system))
    = bytes "app.a:1|c" ++ [LF] ++ bytes "app.b:2|c" ++ [LF]
        ++ bytes "app.c:3|c" ++ [LF].
Proof.
  assert (F : race_free orderly_schedule (boot scenario)).
  { vm_compute. tauto. }
  assert (Hp : pending orderly_system = []) by (vm_compute; reflexivity).
  split; [exact New_scenario|]. split; [exact F|]. split; [exact orderly_run|].
  split; [exact Hp|].
  rewrite (proj2 (every_byte_once _ _ _ _ New_scenario F orderly_run) Hp).
  vm_compute. reflexivity.
Defined.

(** ** Requests and drains *)

Lemma step_requests l s s' :
  step l s = Next s' →
  queued (log (st s)) = taken (log (st s)) + chLen (flushChan (self (st s))) →
  queued (log (st s')) = taken (log (st s')) + chLen (flushChan (self (st s'))).
Proof.
  intros H E. destruct l.
  - apply step_send in H as ->. simpl.
    destruct (send_effect key value mt ts (st s)) as (L & F & _).
    cbv zeta in L, F. rewrite L, F. clear L F.
    repeat case_decide; rewrite ?bool_decide_eq_true_2, ?bool_decide_eq_false_2 by done;
      unfold queued, taken in *; simpl; lia.
  - destruct s as [[h c lg] b cl]. step_cases H. done.
  - destruct s as [[h c lg] b cl]. step_cases H.
    destruct (requestFlush_chan (emit EvTick {| mem := h; self := c; log := lg |}))
      as [F L].
    rewrite L, F. clear L F. simpl.
    case_decide; rewrite ?bool_decide_eq_true_2, ?bool_decide_eq_false_2 by done;
      unfold queued, taken in *; simpl; lia.
  - destruct s as [[h c lg] b cl]. step_cases H; unfold queued, taken in *; simpl; lia.
  - destruct s as [[h c lg] b cl]. step_cases H; unfold queued, taken in *; simpl; lia.
  - destruct s as [[h c lg] b cl]. step_cases H; unfold queued, taken in *; simpl; lia.
  - destruct s as [[h c lg] b cl]. step_cases H; unfold queued, taken in *; simpl; lia.
  - destruct s as [[h c lg] b cl]. step_cases H; unfold queued, taken in *; simpl; lia.
Qed.

Lemma run_requests ls : ∀ s s',
  run ls s = Next s' →
  queued (log (st s)) = taken (log (st s)) + chLen (flushChan (self (st s))) →
  queued (log (st s')) = taken (log (st s')) + chLen (flushChan (self (st s'))).
Proof.
  induction ls as [|l ls IH]; intros s s' H E; simpl in H.
  - by simplify_eq.
  - destruct (step l s) as [s1| |] eqn:E1; try done.
    eapply IH; [exact H|]. by eapply step_requests.
Qed.

(** X10.  Every request that was queued on [flushChan] is taken by the
    background task once or is still in the channel: in every state a
    client can be in, the requests queued so far are as many as the
    drains the channel has started plus the one that may be waiting.  So
    the channel starts no drain that was not asked for, and at most one
    more is to come. *)
Theorem requests_taken_once s :
  reachable s →
  queued (log (st s)) = taken (log (st s)) + chLen (flushChan (self (st s)))
  ∧ taken (log (st s)) ≤ queued (log (st s)) ≤ taken (log (st s)) + 1.
Proof.
  intros R. pose proof (reachable_inv s R) as (_ & _ & _ & Hl & _).
  destruct R as (opts & st0 & ls & HN & Hr).
  assert (E : queued (log (st s))
              = taken (log (st s)) + chLen (flushChan (self (st s)))).
  { eapply run_requests; [exact Hr|].
    destruct (New_spec opts st0 HN) as (_ & _ & _ & _ & L & F & _).
    simpl. rewrite L, F. reflexivity. }
  split; [exact E|]. lia.
Qed.

Lemma requests_taken_once_witness :
  reachable orderly_system
  ∧ queued (log (st orderly_system)) = 1
  ∧ taken (log (st orderly_system)) = 1
  ∧ chLen (flushChan (self (st orderly_system))) = 0.
Proof.
  assert (R : reachable orderly_system)
    by exact (reachable_scenario _ _ orderly_run).
  pose proof (proj1 (requests_taken_once orderly_system R)) as E.
  assert (Q : queued (log (st orderly_system)) = 1) by (vm_compute; reflexivity).
  assert (T : taken (log (st orderly_system)) = 1) by (vm_compute; reflexivity).
  split; [exact R|]. split; [exact Q|]. split; [exact T|]. lia.
Defined.

(** ** No way back *)

Lemma step_ranks l s s' :
  inv s → step l s = Next s' →
  close_rank (closer s) ≤ close_rank (closer s')
  ∧ bg_rank (bg s) ≤ bg_rank (bg s')
  ∧ wg (self (st s')) ≤ wg (self (st s))
  ∧ (connClosed (conn (self (st s))) = true →
     connClosed (conn (self (st s'))) = true).
Proof.
  intros (_ & _ & _ & _ & Hsh) H. destruct l.
  - apply step_send in H as ->. simpl.
    destruct (send_others key value mt ts (st s)) as (_ & -> & _ & _ & _ & ->).
    by split_and!.
  - destruct s as [[h c lg] b cl]. step_cases H. split_and!; auto; lia.
  - destruct s as [[h c lg] b cl]. step_cases H.
    rewrite requestFlush_self. simpl. split_and!; auto; lia.
  - destruct s as [[h c lg] b cl]. step_cases H; split_and!; auto; lia.
  - destruct s as [[h c lg] b cl]. step_cases H; split_and!; auto; lia.
  - destruct s as [[h c lg] b cl]. step_cases H; split_and!; auto; lia.
  - destruct Hsh as (Hq & Hc & _).
    destruct s as [[h c lg] b cl]. simpl in Hq, Hc.
    step_cases H.
    rewrite (proj2 Hc) by congruence. simpl. split_and!; auto; lia.
  - destruct s as [[h c lg] b cl]. step_cases H; split_and!; auto; lia.
Qed.

Lemma run_ranks ls : ∀ s s',
  inv s → run ls s = Next s' →
  close_rank (closer s) ≤ close_rank (closer s')
  ∧ bg_rank (bg s) ≤ bg_rank (bg s')
  ∧ wg (self (st s')) ≤ wg (self (st s))
  ∧ (connClosed (conn (self (st s))) = true →
     connClosed (conn (self (st s'))) = true).
Proof.
  induction ls as [|l ls IH]; intros s s' I H; simpl in H.
  - simplify_eq. by split_and!.
  - destruct (step l s) as [s1| |] eqn:E; try done.
    destruct (step_ranks l s s1 I E) as (A1 & B1 & C1 & D1).
    destruct (IH s1 s' (step_inv l s s1 E I) H) as (A2 & B2 & C2 & D2).
    split_and!; [lia|lia|lia|auto].
Qed.

(** X11.  Nothing is undone.  From a state a client can be in, along
    every schedule: [Close] does not go back (not called, waiting,
    returned), the background task does not go back (not started,
    running, in its final drain, returned), the wait group does not go
    up, and a closed connection stays closed.  In particular a client
    that was closed is not opened again by using it. *)
Theorem nothing_is_undone ls s s' :
  reachable s → run ls s = Next s' →
  close_rank (closer s) ≤ close_rank (closer s')
  ∧ bg_rank (bg s) ≤ bg_rank (bg s')
  ∧ wg (self (st s')) ≤ wg (self (st s))
  ∧ (connClosed (conn (self (st s))) = true →
     connClosed (conn (self (st s'))) = true).
Proof.
  intros R H. eapply run_ranks; [|exact H]. by apply reachable_inv.
Qed.

Lemma nothing_is_undone_witness :
  reachable closed_system
  ∧ run [LSend "late" "1" "c" []] closed_system = Next late_system
  ∧ closer late_system = CloseReturned
  ∧ connClosed (conn (self (st late_system))) = true.
Proof.
  assert (R : reachable closed_system)
    by exact (reachable_scenario _ _ close_schedule_run).
  destruct (nothing_is_undone _ _ _ R late_run) as (A & _ & _ & D).
  split; [exact R|]. split; [exact late_run|]. split.
  - destruct (closer late_system) eqn:E; [| |reflexivity];
      exfalso; revert A; vm_compute; lia.
  - apply D. vm_compute. reflexivity.
Defined.

(** ** Where errors go *)

Lemma step_reports h l s s' :
  step l s = Next s' →
  errorHandler (self (st s)) = h → reports h (log (st s)) →
  errorHandler (self (st s')) = h ∧ reports h (log (st s')).
Proof.
  intros H E Hr. destruct l.
  - apply step_send in H as ->. simpl.
    destruct (send_others key value mt ts (st s)) as (_ & _ & -> & _).
    split; [exact E|].
    destruct (send_effect key value mt ts (st s)) as (L & _).
    cbv zeta in L. rewrite L. by case_decide.
  - destruct s as [[hp c lg] b cl]. step_cases H. done.
  - destruct s as [[hp c lg] b cl]. step_cases H.
    rewrite (proj2 (requestFlush_chan _)), requestFlush_self. by simpl.
  - destruct s as [[hp c lg] b cl]. step_cases H; done.
  - destruct s as [[hp c lg] b cl]. step_cases H; done.
  - destruct s as [[hp c lg] b cl]. step_cases H; by split_and?.
  - destruct s as [[hp c lg] b cl]. step_cases H; done.
  - destruct s as [[hp c lg] b cl]. step_cases H; by split_and?.
Qed.

Lemma run_reports h ls : ∀ s s',
  run ls s = Next s' →
  errorHandler (self (st s)) = h → reports h (log (st s)) →
  errorHandler (self (st s')) = h ∧ reports h (log (st s')).
Proof.
  induction ls as [|l ls IH]; intros s s' H E Hr; simpl in H.
  - by simplify_eq.
  - destruct (step l s) as [s1| |] eqn:E1; try done.
    destruct (step_reports h l s s1 E1 E Hr) as [E' Hr'].
    by eapply IH.
Qed.

Lemma reports_without_handler l :
  reports None l → ∀ f err, ¬ In (EvHandler f err) l.
Proof.
  induction l as [|e l IH]; intros Hr f err; simpl; [tauto|].
  intros [->|Hin].
  - simpl in Hr. by destruct Hr.
  - destruct e; simpl in Hr; try (by eapply IH).
    + destruct err0; [destruct Hr|]; by eapply IH.
    + by destruct Hr.
    + destruct err0; [destruct Hr|]; by eapply IH.
Qed.

Lemma reports_with_handler f l :
  reports (Some f) l →
  (∀ bs err, In (EvWrite bs (Some err)) l → In (EvHandler f err) l)
  ∧ (∀ err, In (EvConnClose (Some err)) l → In (EvHandler f err) l)
  ∧ (∀ g err, In (EvHandler g err) l → g = f).
Proof.
  revert l.
  assert (G : ∀ n l, length l ≤ n → reports (Some f) l →
    (∀ bs err, In (EvWrite bs (Some err)) l → In (EvHandler f err) l)
    ∧ (∀ err, In (EvConnClose (Some err)) l → In (EvHandler f err) l)
    ∧ (∀ g err, In (EvHandler g err) l → g = f)).
  { induction n as [|n IH]; intros l Hn Hr.
    - destruct l; [|simpl in Hn; lia]. simpl. by split_and!.
    - destruct l as [|e l]; [simpl; by split_and!|].
      simpl in Hn.
      assert (Skip : reports (Some f) l →
        (∀ bs err, e ≠ EvWrite bs (Some err))
        → (∀ err, e ≠ EvConnClose (Some err))
        → (∀ g err, e = EvHandler g err → g = f) →
        (∀ bs err, In (EvWrite bs (Some err)) (e :: l) → In (EvHandler f err) (e :: l))
        ∧ (∀ err, In (EvConnClose (Some err)) (e :: l) → In (EvHandler f err) (e :: l))
        ∧ (∀ g err, In (EvHandler g err) (e :: l) → g = f)).
      { intros Hl N1 N2 N3.
        destruct (IH l ltac:(lia) Hl) as (A & B & C).
        split_and!.
        - intros bs err [->|Hin]; [by destruct (N1 bs err)|]. right. eauto.
        - intros err [->|Hin]; [by destruct (N2 err)|]. right. eauto.
        - intros g err [->|Hin]; [by eapply N3|]. eauto. }
      destruct e; simpl in Hr; try (apply Skip; by intros).
      + destruct err; [by destruct Hr|]. apply Skip; by intros.
      + destruct Hr as [[= <-] Hr].
        destruct l as [|e2 l2]; [done|].
        destruct e2; try done.
        * destruct err0 as [err'|]; [|done]. destruct Hr as [-> Hr].
          simpl in Hn. destruct (IH l2 ltac:(lia) Hr) as (A & B & C).
          split_and!.
          -- intros bs0 e0 [?|[[= <- <-]|Hin]]; [done|by left|].
             right. right. eauto.
          -- intros e0 [?|[?|Hin]]; [done|done|]. right. right. eauto.
          -- intros g e0 [[= <- <-]|[?|Hin]]; [done|done|]. eauto.
        * destruct err0 as [err'|]; [|done]. destruct Hr as [-> Hr].
          simpl in Hn. destruct (IH l2 ltac:(lia) Hr) as (A & B & C).
          split_and!.
          -- intros bs0 e0 [?|[?|Hin]]; [done|done|]. right. right. eauto.
          -- intros e0 [?|[[= <-]|Hin]]; [done|by left|]. right. right. eauto.
          -- intros g e0 [[= <- <-]|[?|Hin]]; [done|done|]. eauto.
      + destruct err; [by destruct Hr|]. apply Skip; by intros. }
  intros l. by apply (G (length l)).
Qed.

(** X12.  Errors of the connection go to the handler and nowhere else.
    For a client made with the handler [h] (none, or a function): in
    every state it can reach, each handler call in the log is a call of
    [h] with the error of the failed write or close right before it.
    Without a handler there is no call at all, and the errors are
    dropped; with a handler [f], every failed write and a failed close
    has its call of [f] with that error. *)
Theorem errors_go_to_the_handler opts st0 ls s :
  New opts None = Ok st0 →
  run ls (boot st0) = Next s →
  let h := Options.errorHandler (configure opts) in
  reports h (log (st s))
  ∧ (h = None → ∀ f err, ¬ In (EvHandler f err) (log (st s)))
  ∧ (∀ f, h = Some f →
       (∀ bs err, In (EvWrite bs (Some err)) (log (st s)) →
                  In (EvHandler f err) (log (st s)))
       ∧ (∀ err, In (EvConnClose (Some err)) (log (st s)) →
                 In (EvHandler f err) (log (st s)))
       ∧ (∀ g err, In (EvHandler g err) (log (st s)) → g = f)).
Proof.
  intros HN Hr h.
  destruct (New_spec opts st0 HN)
    as (_ & _ & _ & _ & L & _ & _ & _ & _ & _ & EH & _).
  assert (R : reports h (log (st s))).
  { eapply (run_reports h ls (boot st0) s Hr); simpl; [exact EH|].
    rewrite L. exact I. }
  split; [exact R|]. split.
  - intros Hn. rewrite Hn in R. by apply reports_without_handler.
  - intros f Hf. rewrite Hf in R. by apply reports_with_handler.
Qed.

Example New_watched :
  New [ErrorHandler (Some (Handler 7)); Prefix "app"] None = Ok watched.
Proof. vm_compute. reflexivity. Qed.

Lemma failing_run : run failing_schedule (boot watched) = Next failed_system.
Proof. vm_compute. reflexivity. Qed.

Lemma errors_go_to_the_handler_witness :
  New [ErrorHandler (Some (Handler 7)); Prefix "app"] None = Ok watched
  ∧ run failing_schedule (boot watched) = Next failed_system
  ∧ In (EvWrite (bytes "app.a:1|c") (Some (Error "connection refused")))
      (log (st failed_system))
  ∧ In (EvHandler (Handler 7) (Error "connection refused"))
      (log (st failed_system))
  ∧ In (EvHandler (Handler 7) (Error "already closed"))
      (log (st failed_system)).
Proof.
  destruct (errors_go_to_the_handler _ _ _ _ New_watched failing_run)
    as (_ & _ & Hf).
  destruct (Hf (Handler 7) eq_refl) as (A & B & _).
  assert (W : In (EvWrite (bytes "app.a:1|c") (Some (Error "connection refused")))
                (log (st failed_system))).
  { vm_compute. tauto. }
  assert (C : In (EvConnClose (Some (Error "already closed")))
                (log (st failed_system))).
  { vm_compute. tauto. }
  split; [exact New_watched|]. split; [exact failing_run|].
  split; [exact W|]. split; [exact (A _ _ W)|exact (B _ C)].
Defined.

(** ** The buffer's array *)

Lemma send_cap key value mt ts st :
  wf st →
  cap (buffer (self st)) ≤ cap (buffer (self (send key value mt ts st)))
  ∧ (len (buffer (self st)) + length (line st key value mt)
     ≤ cap (buffer (self st)) →
     arr (buffer (self (send key value mt ts st))) = arr (buffer (self st))
     ∧ cap (buffer (self (send key value mt ts st))) = cap (buffer (self st))).
Proof.
  intros W.
  destruct (send_careful key value mt ts st W)
    as [(_ & _ & C & A)|(st' & (_ & _ & C & A) & ->)].
  - by split.
  - by rewrite (proj1 (requestFlush_fields st')).
Qed.

Lemma step_cap l s s' :
  wf (st s) → step l s = Next s' →
  cap (buffer (self (st s))) ≤ cap (buffer (self (st s'))).
Proof.
  intros W H. destruct l.
  - apply step_send in H as ->. simpl.
    exact (proj1 (send_cap key value mt ts (st s) W)).
  - destruct s as [[h c lg] b cl]. step_cases H. lia.
  - destruct s as [[h c lg] b cl]. step_cases H.
    rewrite (proj1 (requestFlush_fields _)). simpl. lia.
  - destruct s as [[h c lg] b cl]. step_cases H; lia.
  - destruct s as [[h c lg] b cl]. step_cases H; lia.
  - destruct s as [[h c lg] b cl]. step_cases H; lia.
  - destruct s as [[h c lg] b cl]. step_cases H; lia.
  - destruct s as [[h c lg] b cl]. step_cases H; lia.
Qed.

Lemma run_cap ls : ∀ s s',
  wf (st s) → run ls s = Next s' →
  cap (buffer (self (st s))) ≤ cap (buffer (self (st s'))).
Proof.
  induction ls as [|l ls IH]; intros s s' W H; simpl in H.
  - by simplify_eq.
  - destruct (step l s) as [s1| |] eqn:E; try done.
    pose proof (step_cap l s s1 W E).
    pose proof (IH s1 s' (step_wf l s s1 E W) H). lia.
Qed.

(** X13.  The room [New] made for the buffer is never given up, and the
    buffer is not moved while its lines fit: along every schedule the
    buffer's capacity is at least the one it started with (a drain cuts
    the length, not the capacity), and a [send] whose line fits in the
    capacity leaves the buffer over the same array with the same
    capacity. *)
Theorem buffer_keeps_its_room opts st0 ls s :
  New opts None = Ok st0 →
  run ls (boot st0) = Next s →
  cap (buffer (self st0)) ≤ cap (buffer (self (st s)))
  ∧ ∀ key value mt ts,
      len (buffer (self (st s))) + length (line (st s) key value mt)
      ≤ cap (buffer (self (st s))) →
      arr (buffer (self (send key value mt ts (st s))))
      = arr (buffer (self (st s)))
      ∧ cap (buffer (self (send key value mt ts (st s))))
        = cap (buffer (self (st s))).
Proof.
  intros HN Hr.
  pose proof (boot_inv opts st0 HN) as I.
  pose proof (run_inv ls (boot st0) s Hr I) as (W & _).
  split.
  - exact (run_cap ls (boot st0) s (proj1 I) Hr).
  - intros key value mt ts Hfit.
    exact (proj2 (send_cap key value mt ts (st s) W) Hfit).
Qed.

Lemma buffer_keeps_its_room_witness :
  New [Prefix "app."; Tags [env_prod]] None = Ok scenario
  ∧ run orderly_schedule (boot scenario) = Next orderly_system
  ∧ cap (buffer (self scenario)) = 1024
  ∧ 1024 ≤ cap (buffer (self (st orderly_system)))
  ∧ arr (buffer (self (send "d" "4" "c" [] (st orderly_system))))
    = arr (buffer (self (st orderly_system))).
Proof.
  destruct (buffer_keeps_its_room _ _ _ _ New_scenario orderly_run) as [C A].
  assert (E : cap (buffer (self scenario)) = 1024) by (vm_compute; reflexivity).
  assert (Hfit : len (buffer (self (st orderly_system)))
                 + length (line (st orderly_system) "d" "4" "c")
                 ≤ cap (buffer (self (st orderly_system))))
    by (vm_compute; lia).
  split; [exact New_scenario|]. split; [exact orderly_run|].
  split; [exact E|]. split; [rewrite <- E; exact C|].
  exact (proj1 (A "d" "4" "c" [] Hfit)).
Defined.

(** ** Nothing holds a [send] back *)

Lemma sent_sends p key value mt ts ls :
  sent p (LSend key value mt ts :: ls)
  = (p ++ bytes key ++ ":"%char :: bytes value ++ "|"%char :: bytes mt ++ [LF])
      ++ sent p ls.
Proof. reflexivity. Qed.

Lemma sends_run ls : ∀ s,
  wf (st s) → dtags (st s) = [] →
  Forall (λ l, match l with LSend _ _ _ _ => True | _ => False end) ls →
  ∃ s', run ls s = Next s'
        ∧ buf (st s') = buf (st s) ++ sent (pre (st s)) ls
        ∧ bg s' = bg s ∧ closer s' = closer s
        ∧ length (buf (st s)) + 3 * length ls ≤ length (buf (st s')).
Proof.
  induction ls as [|l ls IH]; intros s W T F.
  - exists s. simpl. rewrite app_nil_r. split_and!; [done..|lia].
  - apply Forall_cons in F as [Hl F].
    destruct l as [key value mt ts| | | | | | |]; try done.
    set (s1 := {| st := send key value mt ts (st s); bg := bg s;
                  closer := closer s |}).
    destruct (send_spec key value mt ts (st s) W) as (W1 & B1 & P1 & T1 & _).
    destruct (IH s1 W1 ltac:(simpl; congruence) F) as (s' & Hr & B & Hb & Hc & Hn).
    exists s'. split; [exact Hr|].
    change (st s1) with (send key value mt ts (st s)) in B, Hn.
    rewrite P1, B1 in B. rewrite B1 in Hn.
    split_and!; [|exact Hb|exact Hc|].
    + rewrite B, sent_sends. unfold line. rewrite T. simpl.
      by repeat first [rewrite <- app_assoc | rewrite <- app_comm_cons].
    + pose proof (line_length (st s) key value mt).
      rewrite length_app in Hn. simpl. lia.
Qed.

(** X14.  Nothing holds a [send] back, and [maxBufferSize] is no limit:
    in whatever state a client is (also after [Close], and with the
    background task gone or not started), a run of [send]s goes through,
    each one adding its whole line to the buffer, so the buffer grows by
    three bytes or more with each and holds all of them until a drain
    takes them. *)
Theorem sends_always_go_through ls s :
  reachable s →
  Forall (λ l, match l with LSend _ _ _ _ => True | _ => False end) ls →
  ∃ s', run ls s = Next s'
        ∧ buf (st s') = buf (st s) ++ sent (pre (st s)) ls
        ∧ bg s' = bg s ∧ closer s' = closer s
        ∧ length (buf (st s)) + 3 * length ls ≤ length (buf (st s')).
Proof.
  intros R F. apply sends_run; [|  |exact F].
  - exact (proj1 (reachable_inv s R)).
  - destruct R as (opts & st0 & ls0 & HN & Hr).
    destruct (New_spec opts st0 HN) as (W0 & _ & _ & T0 & _).
    destruct (run_pre_dtags ls0 (boot st0) s Hr W0) as (_ & _ & T).
    by rewrite T.
Qed.

Lemma sends_always_go_through_witness :
  reachable closed_system
  ∧ (∃ s', run [LSend "late" "1" "c" []; LSend "later" "2" "c" []] closed_system
           = Next s'
           ∧ buf (st s') = bytes "app.late:1|c" ++ [LF]
                             ++ bytes "app.later:2|c" ++ [LF]).
Proof.
  assert (R : reachable closed_system)
    by exact (reachable_scenario _ _ close_schedule_run).
  split; [exact R|].
  destruct (sends_always_go_through
              [LSend "late" "1" "c" []; LSend "later" "2" "c" []]
              closed_system R ltac:(by repeat constructor))
    as (s' & Hr & B & _).
  exists s'. split; [exact Hr|]. rewrite B. vm_compute. reflexivity.
Defined.
